(** * Executors of deploy/functions/release/executor.ts

    A shallow embedding of the three executors ([QueueExecutor],
    [RateLimitedExecutor], [InlineExecutor]), of the shared [handler] and of
    [parseErrorCode], together with the properties stated about them.

    JavaScript is modelled as follows.
    - A property that may hold anything ([any]) holds a [value]; reading an
      absent property yields [VUndefined].
    - Operation records live in a heap and are referred to by address, since
      [run], [task] and [handler] all mutate the one record they share.
    - A call completes synchronously ([Normal] or [Abrupt]); a promise
      settles ([Fulfilled] or [Rejected]).  An [async] function never
      completes abruptly: what its body throws rejects the promise it
      returns.
    - The caller's [func] is opaque: its k-th invocation completes as its
      [behaviour] says.  Every invocation and every assignment the code makes
      is appended to the world's event log.
    - A failure is an object; [ErrObj] has the fields the code reads, and
      records whether its [code] can be assigned: the module is strict-mode
      code, where an assignment that cannot go through throws a
      [TypeError].
    - The two queues are imported, not defined, by executor.ts: p-queue is
      an npm package, throttler/queue is described by its contract. *)

From Stdlib Require Import ZArith String Bool Lia.
From stdpp Require Import base list.

#[local] Set Warnings "-register-all".

Local Open Scope Z_scope.

(** ** Values and failure objects *)

Inductive value : Type :=
| VUndefined
| VNull
| VNum (n : Z)
| VStr (s : string).

(** JavaScript truthiness of a value. *)
Definition truthy (v : value) : bool :=
  match v with
  | VUndefined | VNull => false
  | VNum n => negb (Z.eqb n 0)
  | VStr s => negb (String.eqb s EmptyString)
  end.

(** [a || b] *)
Definition js_or (a b : value) : value := if truthy a then a else b.

Declare Scope js_scope.
Delimit Scope js_scope with js.
Notation "a '|||' b" := (js_or a b) (at level 50, left associativity) : js_scope.

(** [o?.f]: undefined when [o] is absent. *)
Definition optchain {A : Type} (o : option A) (f : A -> value) : value :=
  match o with
  | Some x => f x
  | None => VUndefined
  end.

Record Response : Type := mkResponse { statusCode : value }.

Record Context : Type := mkContext { response : option Response }.

(** The shape of a failure as far as the executor looks into it.
    [code_writable] tells whether an assignment to its [code] property goes
    through: it does not on a frozen failure, on one that is not extensible
    and has no [code], or when [code] is read-only. *)
Inductive ErrObj : Type := mkErr {
  message : string;
  status : value;
  code : value;
  context : option Context;
  original : option ErrObj;
  code_writable : bool
}.

(** [err.code = c], where the assignment goes through. *)
Definition set_code (err : ErrObj) (c : value) : ErrObj :=
  {| message := message err;
     status := status err;
     code := c;
     context := context err;
     original := original err;
     code_writable := code_writable err |}.

(** What the assignment [err.code = c] throws, in strict mode, where it does
    not go through: a fresh [TypeError], which has none of the locations the
    classifier looks at. *)
Definition TypeError_code_not_writable : ErrObj :=
  {| message := "Cannot assign to read only property 'code' of object";
     status := VUndefined;
     code := VUndefined;
     context := None;
     original := None;
     code_writable := true |}.

(** What [run] can reject with: a failure of [func], or the dedicated
    failure built by [new RetriesExhaustedError(name, retries, cause)]. *)
Inductive failure : Type :=
| Thrown (e : ErrObj)
| RetriesExhaustedError (name : string) (retries : nat) (cause : ErrObj).

Definition is_retries_exhausted (f : failure) : bool :=
  match f with
  | RetriesExhaustedError _ _ _ => true
  | Thrown _ => false
  end.

(** ** Completions and promises *)

Inductive completion (E A : Type) : Type :=
| Normal (a : A)
| Abrupt (e : E).
Arguments Normal {E A} a.
Arguments Abrupt {E A} e.

Inductive promise (E A : Type) : Type :=
| Fulfilled (a : A)
| Rejected (e : E).
Arguments Fulfilled {E A} a.
Arguments Rejected {E A} e.

(** [await c]: a rejected promise throws, a fulfilled one yields its value;
    a call that threw before returning a promise throws as well. *)
Definition await {E A : Type} (c : completion E (promise E A)) : completion E A :=
  match c with
  | Normal (Fulfilled a) => Normal a
  | Normal (Rejected e) => Abrupt e
  | Abrupt e => Abrupt e
  end.

(** The promise an async function returns for a body that completed as [c]. *)
Definition settle {E A : Type} (c : completion E A) : promise E A :=
  match c with
  | Normal a => Fulfilled a
  | Abrupt e => Rejected e
  end.

Definition lift_promise {A : Type} (p : promise ErrObj A) : promise failure A :=
  match p with
  | Fulfilled a => Fulfilled a
  | Rejected e => Rejected (Thrown e)
  end.

(** ** Operations, the heap and the event log *)

Definition outcome : Type := completion ErrObj (promise ErrObj value).

(** A caller-supplied [func]: [fid] tells closures apart, [behaviour k] is
    how the invocation that follows [k] earlier ones completes. *)
Record Func : Type := mkFunc {
  fid : nat;
  behaviour : nat -> outcome
}.

(** [Operation]; [retryCount] is present on a [RateLimitedOperation] only. *)
Record Operation : Type := mkOperation {
  func : Func;
  retryCodes : list Z;
  result : option value;
  error : option ErrObj;
  retryCount : option nat
}.

Definition with_result (v : value) (op : Operation) : Operation :=
  {| func := func op; retryCodes := retryCodes op; result := Some v;
     error := error op; retryCount := retryCount op |}.

Definition with_error (e : ErrObj) (op : Operation) : Operation :=
  {| func := func op; retryCodes := retryCodes op; result := result op;
     error := Some e; retryCount := retryCount op |}.

Definition with_retryCount (n : nat) (op : Operation) : Operation :=
  {| func := func op; retryCodes := retryCodes op; result := result op;
     error := error op; retryCount := Some n |}.

(** Addresses of records in the heap. *)
Abbreviation addr := nat.

Inductive event : Type :=
| Invoke (f : nat)                       (* op.func() *)
| AssignResult (a : addr) (v : value)    (* op.result = ... *)
| AssignCode (e : ErrObj) (c : value)    (* err.code = code *)
| AssignError (a : addr) (e : ErrObj).   (* op.error = err *)

Record world : Type := mkWorld {
  heap : list Operation;
  events : list event
}.

Definition is_invoke (f : nat) (ev : event) : bool :=
  match ev with
  | Invoke g => Nat.eqb f g
  | _ => false
  end.

Definition is_assign_code (ev : event) : bool :=
  match ev with
  | AssignCode _ _ => true
  | _ => false
  end.

Definition count (p : event -> bool) (l : list event) : nat :=
  length (List.filter p l).

(** How often the closure [f] has been invoked so far. *)
Definition invocations (f : nat) (w : world) : nat :=
  count (is_invoke f) (events w).

(** How often a failure's code field has been assigned so far. *)
Definition code_assignments (w : world) : nat :=
  count is_assign_code (events w).

(** ** The monad of the model: state, and [None] for a dangling address or
    exhausted fuel (neither happens, see the totality lemmas). *)

Definition M (A : Type) : Type := world -> option (A * world).

Definition ret {A : Type} (a : A) : M A := fun w => Some (a, w).

Definition bind {A B : Type} (m : M A) (k : A -> M B) : M B :=
  fun w =>
    match m w with
    | Some (a, w') => k a w'
    | None => None
    end.

Definition stuck {A : Type} : M A := fun _ => None.

Declare Scope exec_scope.
Delimit Scope exec_scope with exec.
Notation "x <- c ;; k" := (bind c (fun x => k))
  (at level 100, c at next level, right associativity) : exec_scope.
Notation "c ;;; k" := (bind c (fun _ => k))
  (at level 100, right associativity) : exec_scope.
Local Open Scope exec_scope.

Definition emit (ev : event) : M unit :=
  fun w => Some (tt, {| heap := heap w; events := events w ++ [ev] |}).

(** An object literal: a fresh record. *)
Definition new_op (op : Operation) : M addr :=
  fun w => Some (length (heap w), {| heap := heap w ++ [op]; events := events w |}).

Definition read (a : addr) : M Operation :=
  fun w =>
    match heap w !! a with
    | Some op => Some (op, w)
    | None => None
    end.

Definition modify (a : addr) (f : Operation -> Operation) : M unit :=
  fun w =>
    match heap w !! a with
    | Some op => Some (tt, {| heap := <[a := f op]> (heap w); events := events w |})
    | None => None
    end.

(** [f()] *)
Definition call (f : Func) : M outcome :=
  fun w =>
    Some (behaviour f (invocations (fid f) w),
          {| heap := heap w; events := events w ++ [Invoke (fid f)] |}).

(** An [async] function: whatever its body does, the call returns a promise. *)
Definition async {E A : Type} (body : M (completion E A)) : M (completion E (promise E A)) :=
  c <- body ;; ret (Normal (settle c)).

(** ** executor.ts *)

Record RunOptions : Type := mkRunOptions {
  opt_retryCodes : option (list Z)
}.

Definition DEFAULT_RETRY_CODES : list Z := [429; 409; 503]%Z.

(** [retryCodes.includes(code)] *)
Definition includes (codes : list Z) (c : value) : bool :=
  match c with
  | VNum n => existsb (Z.eqb n) codes
  | _ => false
  end.

Definition parseErrorCode (err : ErrObj) : value :=
  (status err
   ||| code err
   ||| optchain (context err) (fun c => optchain (response c) statusCode)
   ||| optchain (original err) code
   ||| optchain (original err) (fun o =>
         optchain (context o) (fun c => optchain (response c) statusCode)))%js.

Definition handler_body (a : addr) : M (completion ErrObj unit) :=
  op <- read a ;;
  r <- call (func op) ;;
  match await r with
  | Normal v =>
      modify a (with_result v) ;;;
      emit (AssignResult a v) ;;;
      ret (Normal tt)
  | Abrupt err =>
      let code := parseErrorCode err in
      op' <- read a ;;
      if includes (retryCodes op') code then
        ret (Abrupt err)
      else if code_writable err then
        emit (AssignCode err code) ;;;
        modify a (with_error (set_code err code)) ;;;
        emit (AssignError a (set_code err code)) ;;;
        ret (Normal tt)
      else
        ret (Abrupt TypeError_code_not_writable)
  end.

Definition handler (a : addr) : M (completion ErrObj (promise ErrObj unit)) :=
  async (handler_body a).

(** [opts?.retryCodes || DEFAULT_RETRY_CODES]; an array, even an empty one,
    is truthy. *)
Definition effective_retryCodes (opts : option RunOptions) : list Z :=
  match opts with
  | Some o =>
      match opt_retryCodes o with
      | Some codes => codes
      | None => DEFAULT_RETRY_CODES
      end
  | None => DEFAULT_RETRY_CODES
  end.

(** Modelled from the spec: the class [Queue] of throttler/queue, which
    executor.ts imports.  The promise of its [run(item)] "resolves once the
    item's handler has completed without raising (internally retrying on
    raise, per its own backoff policy, up to its own configured attempt
    ceiling)".  Once the ceiling is reached the queue gives up and the
    promise rejects; with what, as a function [giveup] of the last failure,
    is left to the queue.  [left] counts the retries still allowed. *)
Fixpoint Queue_attempt (giveup : ErrObj -> failure)
    (handle : addr -> M (completion ErrObj (promise ErrObj unit)))
    (left : nat) (a : addr) : M (promise failure unit) :=
  c <- handle a ;;
  match await c with
  | Normal _ => ret (Fulfilled tt)
  | Abrupt err =>
      match left with
      | O => ret (Rejected (giveup err))
      | S n => Queue_attempt giveup handle n a
      end
  end.

(** The options a [Queue] is constructed from, as far as attempts go: how
    many retries it allows, and the failure it gives up with. *)
Record ThrottlerOptions : Type := mkThrottlerOptions {
  q_retries : nat;
  q_giveup : ErrObj -> failure
}.

(** A queue object, seen through what submitting an item does. *)
Definition Queue : Type := addr -> M (promise failure unit).

(** [new Queue({ ...options, handler })] *)
Definition new_Queue (options : ThrottlerOptions)
    (handle : addr -> M (completion ErrObj (promise ErrObj unit))) : Queue :=
  Queue_attempt (q_giveup options) handle (q_retries options).

Record QueueExecutor : Type := mkQueueExecutor {
  queue : Queue
}.

Definition new_QueueExecutor (options : ThrottlerOptions) : QueueExecutor :=
  {| queue := new_Queue options handler |}.

Definition QueueExecutor_run (this : QueueExecutor) (f : Func) (opts : option RunOptions)
  : M (completion failure (promise failure value)) :=
  async (
    let retryCodes := effective_retryCodes opts in
    a <- new_op {| func := f; retryCodes := retryCodes;
                   result := None; error := None; retryCount := None |} ;;
    r <- queue this a ;;
    match r with
    | Rejected e => ret (Abrupt e)
    | Fulfilled _ =>
        op <- read a ;;
        match error op with
        | Some e => ret (Abrupt (Thrown e))
        | None => ret (Normal (default VUndefined (result op)))
        end
    end).

(** [add(task)] of the npm package p-queue: it "runs [task] once concurrency
    permits; does not retry on raise — raising simply fails that [add]
    call".  The promise it returns settles as the task does. *)
Definition PQueue_add (task : M (completion failure (promise failure unit)))
  : M (promise failure unit) :=
  c <- task ;;
  match c with
  | Normal p => ret p
  | Abrupt e => ret (Rejected e)
  end.

Record RateLimitedExecutor : Type := mkRateLimitedExecutor {
  retries : nat
}.

(** [op.retryCount] of a [RateLimitedOperation]. *)
Definition read_retryCount (a : addr) : M nat :=
  op <- read a ;;
  match retryCount op with
  | Some n => ret n
  | None => stuck
  end.

(** The closure [task] of [RateLimitedExecutor.run]; [fuel] bounds how often
    it may resubmit itself. *)
Fixpoint task (fuel : nat) (this : RateLimitedExecutor) (a : addr)
  : M (completion failure (promise failure unit)) :=
  c <- handler a ;;
  match c with
  | Normal p => ret (Normal (lift_promise p))
  | Abrupt err =>
      n <- read_retryCount a ;;
      if Nat.ltb (retries this) n then
        ret (Abrupt (RetriesExhaustedError "rateLimitedExecutor"%string (retries this) err))
      else
        modify a (with_retryCount (S n)) ;;;
        match fuel with
        | O => stuck
        | S fuel' =>
            p <- PQueue_add (task fuel' this a) ;;
            ret (Normal p)
        end
  end.

Definition RateLimitedExecutor_run (this : RateLimitedExecutor) (f : Func)
    (opts : option RunOptions) : M (completion failure (promise failure value)) :=
  async (
    let retryCodes := effective_retryCodes opts in
    a <- new_op {| func := f; retryCodes := retryCodes;
                   result := None; error := None; retryCount := Some O |} ;;
    r <- PQueue_add (task (S (retries this)) this a) ;;
    match r with
    | Rejected e => ret (Abrupt e)
    | Fulfilled _ =>
        op <- read a ;;
        match error op with
        | Some e => ret (Abrupt (Thrown e))
        | None => ret (Normal (default VUndefined (result op)))
        end
    end).

Record InlineExecutor : Type := mkInlineExecutor { }.

Definition InlineExecutor_run (this : InlineExecutor) (f : Func) : M outcome :=
  call f.

(** The [Executor] interface. *)
Class Executor (X : Type) : Type := {
  run : X -> Func -> option RunOptions -> M (completion failure (promise failure value))
}.

#[export] Instance QueueExecutor_Executor : Executor QueueExecutor :=
  {| run := QueueExecutor_run |}.

#[export] Instance RateLimitedExecutor_Executor : Executor RateLimitedExecutor :=
  {| run := RateLimitedExecutor_run |}.

(** ** What an attempt, a queue and a call of [run] leave behind *)

(** What one attempt does to the record at [a] and to the log: the promise
    of [handler], the record afterwards, the events appended. *)
Inductive attempt (a : addr) (op : Operation) (n : nat)
  : promise ErrObj unit -> Operation -> list event -> Prop :=
| attempt_success v :
    await (behaviour (func op) n) = Normal v ->
    attempt a op n (Fulfilled tt) (with_result v op)
      [Invoke (fid (func op)); AssignResult a v]
| attempt_retryable err :
    await (behaviour (func op) n) = Abrupt err ->
    includes (retryCodes op) (parseErrorCode err) = true ->
    attempt a op n (Rejected err) op [Invoke (fid (func op))]
| attempt_terminal err :
    await (behaviour (func op) n) = Abrupt err ->
    includes (retryCodes op) (parseErrorCode err) = false ->
    code_writable err = true ->
    attempt a op n (Fulfilled tt)
      (with_error (set_code err (parseErrorCode err)) op)
      [Invoke (fid (func op));
       AssignCode err (parseErrorCode err);
       AssignError a (set_code err (parseErrorCode err))]
| attempt_not_writable err :
    await (behaviour (func op) n) = Abrupt err ->
    includes (retryCodes op) (parseErrorCode err) = false ->
    code_writable err = false ->
    attempt a op n (Rejected TypeError_code_not_writable) op [Invoke (fid (func op))].

(** How a queue leaves the record once its promise settles: the record
    afterwards and the assignments logged after the last invocation.
    [giveup] is what the queue's promise rejects with when it stops on a
    failure the handler raised. *)
Inductive queue_settled (a : addr) (op : Operation) (giveup : ErrObj -> failure)
  : promise failure unit -> Operation -> list event -> Prop :=
| queue_stored_result v :
    queue_settled a op giveup (Fulfilled tt) (with_result v op) [AssignResult a v]
| queue_stored_error err :
    includes (retryCodes op) (parseErrorCode err) = false ->
    queue_settled a op giveup (Fulfilled tt)
      (with_error (set_code err (parseErrorCode err)) op)
      [AssignCode err (parseErrorCode err);
       AssignError a (set_code err (parseErrorCode err))]
| queue_reraised err :
    queue_settled a op giveup (Rejected (giveup err)) op [].

(** The record [QueueExecutor.run] creates. *)
Definition Operation_of (f : Func) (opts : option RunOptions) : Operation :=
  {| func := f; retryCodes := effective_retryCodes opts;
     result := None; error := None; retryCount := None |}.

(** The record [RateLimitedExecutor.run] creates. *)
Definition RateLimitedOperation_of (f : Func) (opts : option RunOptions) : Operation :=
  {| func := f; retryCodes := effective_retryCodes opts;
     result := None; error := None; retryCount := Some O |}.

(** How [run] settles, for a record [op] created with neither [result] nor
    [error]: the promise of [run], the record afterwards, the assignments
    logged after the last invocation. *)
Inductive run_settled (a : addr) (op : Operation) (giveup : ErrObj -> failure)
  : promise failure value -> Operation -> list event -> Prop :=
| run_resolved v :
    run_settled a op giveup (Fulfilled v) (with_result v op) [AssignResult a v]
| run_rejected_stored err :
    includes (retryCodes op) (parseErrorCode err) = false ->
    run_settled a op giveup
      (Rejected (Thrown (set_code err (parseErrorCode err))))
      (with_error (set_code err (parseErrorCode err)) op)
      [AssignCode err (parseErrorCode err);
       AssignError a (set_code err (parseErrorCode err))]
| run_rejected_queue err :
    run_settled a op giveup (Rejected (giveup err)) op [].

(** What the throttled queue promises whatever its backoff policy: its
    promise "resolves once the item's handler has completed without
    raising". *)
Definition resolves_on_completion (q : Queue)
    (handle : addr -> M (completion ErrObj (promise ErrObj unit))) : Prop :=
  forall a w w',
    handle a w = Some (Normal (Fulfilled tt), w') -> q a w = Some (Fulfilled tt, w').

(** ** The classifier, as described *)

(** The five locations, in the order they are probed. *)
Definition probes (err : ErrObj) : list value :=
  [ status err;
    code err;
    optchain (context err) (fun c => optchain (response c) statusCode);
    optchain (original err) code;
    optchain (original err) (fun o =>
      optchain (context o) (fun c => optchain (response c) statusCode)) ].

Definition present (v : value) : bool :=
  match v with
  | VUndefined => false
  | _ => true
  end.

(** As described: the first present value, undefined if there is none. *)
Fixpoint first_present (l : list value) : value :=
  match l with
  | [] => VUndefined
  | v :: rest => if present v then v else first_present rest
  end.

(** The first truthy value; the last value if none is truthy. *)
Fixpoint first_truthy (l : list value) : value :=
  match l with
  | [] => VUndefined
  | v :: rest =>
      match rest with
      | [] => v
      | _ :: _ => if truthy v then v else first_truthy rest
      end
  end.

(** ** Independence of two calls *)

(** The outcome of [run_ex f opts] and the record it leaves are the same in
    any two worlds in which [f] has been invoked equally often. *)
Definition depends_on_own_func_only
    (run_ex : Func -> option RunOptions -> M (completion failure (promise failure value)))
    (f : Func) (opts : option RunOptions) : Prop :=
  forall w w0,
    invocations (fid f) w = invocations (fid f) w0 ->
    exists r op' w' w0',
      run_ex f opts w = Some (Normal r, w')
      /\ run_ex f opts w0 = Some (Normal r, w0')
      /\ heap w' = heap w ++ [op']
      /\ heap w0' = heap w0 ++ [op'].

(** Two calls of [run_ex], one after the other, in either order: each call
    adds a record of its own, leaves the other record as it is, and settles
    as it does when it goes first. *)
Definition runs_independent
    (run_ex : Func -> option RunOptions -> M (completion failure (promise failure value)))
    (f1 f2 : Func) (o1 o2 : option RunOptions) (w : world) : Prop :=
  exists r1 r2 op1 op2 w1 w2 w2' w1',
    run_ex f1 o1 w = Some (Normal r1, w1) /\ heap w1 = heap w ++ [op1]
    /\ run_ex f2 o2 w1 = Some (Normal r2, w2) /\ heap w2 = heap w ++ [op1; op2]
    /\ run_ex f2 o2 w = Some (Normal r2, w2') /\ heap w2' = heap w ++ [op2]
    /\ run_ex f1 o1 w2' = Some (Normal r1, w1') /\ heap w1' = heap w ++ [op2; op1].

(** ** Scenarios *)

Definition empty_world : world := {| heap := []; events := [] |}.

(** A failure exposing the code [n] through its [code] field only. *)
Definition error_with_code (n : Z) : ErrObj :=
  {| message := "request failed"; status := VUndefined; code := VNum n;
     context := None; original := None; code_writable := true |}.

(** A failure exposing the code [n] through its [status] field only. *)
Definition error_with_status (n : Z) : ErrObj :=
  {| message := "request failed"; status := VNum n; code := VUndefined;
     context := None; original := None; code_writable := true |}.

(** A failure whose [status] is present but zero, next to a [code]. *)
Definition error_with_zero_status (n : Z) : ErrObj :=
  {| message := "request failed"; status := VNum 0; code := VNum n;
     context := None; original := None; code_writable := true |}.

(** A frozen failure exposing the code [n] through its [status] field:
    its [code] cannot be assigned. *)
Definition frozen_error_with_status (n : Z) : ErrObj :=
  {| message := "request failed"; status := VNum n; code := VUndefined;
     context := None; original := None; code_writable := false |}.

(** A [func] that rejects with [err] on each of its first [k] invocations
    and resolves with [v] from then on. *)
Definition fails_then_succeeds (id k : nat) (err : ErrObj) (v : value) : Func :=
  {| fid := id;
     behaviour := fun n => if Nat.ltb n k then Normal (Rejected err)
                           else Normal (Fulfilled v) |}.

(** A [func] that rejects with [err] whenever it is invoked. *)
Definition always_fails (id : nat) (err : ErrObj) : Func :=
  {| fid := id; behaviour := fun _ => Normal (Rejected err) |}.

(** ** Calls in flight *)

(** A call of [run] in flight: just called; its record created at [a] and
    queued, with [more] attempts allowed after the next one; returned, its
    promise settled as [r]. *)
Inductive in_flight : Type :=
| Called (f : Func) (opts : option RunOptions)
| Queued (a : addr) (more : nat)
| Returned (a : addr) (r : promise failure value).

(** What tells the two executors apart once [run] is taken step by step:
    the record created, how many more attempts follow one in which the
    handler raised, and the failure the queue's promise rejects with when
    none is left. *)
Record policy : Type := mkPolicy {
  create : Func -> option RunOptions -> Operation;
  ceiling : nat;
  giveup : ErrObj -> failure
}.

(** One step of a call in flight: creating the record and submitting it;
    or one attempt of the handler on the queued record, after which the
    call returns (from the record, or rejected by the queue) or stays queued
    for another attempt. *)
Definition step (P : policy) (s : in_flight) : M in_flight :=
  match s with
  | Called f opts =>
      a <- new_op (create P f opts) ;;
      ret (Queued a (ceiling P))
  | Queued a more =>
      c <- handler a ;;
      match await c with
      | Normal _ =>
          op <- read a ;;
          match error op with
          | Some e => ret (Returned a (Rejected (Thrown e)))
          | None => ret (Returned a (Fulfilled (default VUndefined (result op))))
          end
      | Abrupt err =>
          match more with
          | O => ret (Returned a (Rejected (giveup P err)))
          | S n => ret (Queued a n)
          end
      end
  | Returned a r => ret (Returned a r)
  end.

(** [n] steps in a row. *)
Fixpoint steps (P : policy) (n : nat) (s : in_flight) : M in_flight :=
  match n with
  | O => ret s
  | S n' => s' <- step P s ;; steps P n' s'
  end.

(** The steps of two calls in flight, taken in the order [sched] says
    ([true]: the first call takes a step). *)
Fixpoint interleave (P : policy) (sched : list bool) (s1 s2 : in_flight)
  : M (in_flight * in_flight) :=
  match sched with
  | [] => ret (s1, s2)
  | true :: rest => s1' <- step P s1 ;; interleave P rest s1' s2
  | false :: rest => s2' <- step P s2 ;; interleave P rest s1 s2'
  end.

(** [QueueExecutor] over the throttled queue: up to [q_retries] more
    attempts, then the failure the queue gives up with. *)
Definition QueueExecutor_policy (options : ThrottlerOptions) : policy :=
  {| create := Operation_of;
     ceiling := q_retries options;
     giveup := q_giveup options |}.

(** [RateLimitedExecutor]: the promise of [task] is that of its one call of
    [handler], so what the handler raises is what the queue's promise
    rejects with. *)
Definition RateLimitedExecutor_policy : policy :=
  {| create := RateLimitedOperation_of; ceiling := O; giveup := Thrown |}.

(** What shows of a call in flight, its address left out. *)
Inductive stage : Type :=
| StageCalled (f : Func) (opts : option RunOptions)
| StageQueued (more : nat)
| StageReturned (r : promise failure value).

Definition stage_of (s : in_flight) : stage :=
  match s with
  | Called f opts => StageCalled f opts
  | Queued _ more => StageQueued more
  | Returned _ r => StageReturned r
  end.

(** The record of a call in flight, once it has created one. *)
Definition record_of (s : in_flight) (w : world) : option Operation :=
  match s with
  | Called _ _ => None
  | Queued a _ | Returned a _ => heap w !! a
  end.

(** The call in flight [s] is a call of [run] with [f]. *)
Definition owns (f : Func) (s : in_flight) (w : world) : Prop :=
  match s with
  | Called g _ => g = f
  | Queued a _ | Returned a _ => exists op, heap w !! a = Some op /\ func op = f
  end.

(** [s] in [w] is where [s0] is in [w0]: same stage, same record, and [f]
    invoked equally often. *)
Definition tracks (f : Func) (s : in_flight) (w : world)
    (s0 : in_flight) (w0 : world) : Prop :=
  owns f s w
  /\ stage_of s = stage_of s0
  /\ record_of s w = record_of s0 w0
  /\ invocations (fid f) w = invocations (fid f) w0.

(** The fields of a record once [run] has settled with [r]. *)
Definition settled_fields (r : promise failure value) (op : Operation) : Prop :=
  (exists v, r = Fulfilled v /\ result op = Some v /\ error op = None)
  \/ (exists e, r = Rejected (Thrown e) /\ result op = None /\ error op = Some e)
  \/ (exists g, r = Rejected g /\ result op = None /\ error op = None).

(** Neither field while the call is pending, at most one once it returned. *)
Definition fields_ok (s : in_flight) (w : world) : Prop :=
  match s with
  | Called _ _ => True
  | Queued a _ =>
      exists op, heap w !! a = Some op /\ result op = None /\ error op = None
  | Returned a r =>
      exists op, heap w !! a = Some op /\ settled_fields r op
  end.

(** Interleaved with one another as [sched] says, each getting the steps it
    needs, two calls of [run_ex] return what they return alone and leave
    the record they leave alone, in two different places. *)
Definition interleaved_as_alone (P : policy)
    (run_ex : Func -> option RunOptions -> M (completion failure (promise failure value)))
    (f1 f2 : Func) (o1 o2 : option RunOptions) (w : world) : Prop :=
  forall sched,
    (S (ceiling P) < count_occ bool_dec sched true)%nat ->
    (S (ceiling P) < count_occ bool_dec sched false)%nat ->
    exists a1 a2 r1 r2 rec1 rec2 w' w1 w2,
      interleave P sched (Called f1 o1) (Called f2 o2) w =
        Some ((Returned a1 r1, Returned a2 r2), w')
      /\ run_ex f1 o1 w = Some (Normal r1, w1)
      /\ run_ex f2 o2 w = Some (Normal r2, w2)
      /\ heap w' !! a1 = Some rec1 /\ heap w1 !! length (heap w) = Some rec1
      /\ heap w' !! a2 = Some rec2 /\ heap w2 !! length (heap w) = Some rec2
      /\ a1 <> a2.

(** [run_ex] is the steps of [P] taken in a row. *)
Definition run_in_steps (P : policy)
    (run_ex : Func -> option RunOptions -> M (completion failure (promise failure value)))
  : Prop :=
  forall f opts w extra,
    exists r w',
      run_ex f opts w = Some (Normal r, w')
      /\ steps P (S (S (ceiling P)) + extra) (Called f opts) w =
           Some (Returned (length (heap w)) r, w').

(** ** Failures that wrap another *)

(** [err] wrapping [o] instead of what it wraps. *)
Definition with_original (o : option ErrObj) (err : ErrObj) : ErrObj :=
  {| message := message err;
     status := status err;
     code := code err;
     context := context err;
     original := o;
     code_writable := code_writable err |}.

(** * Properties *)

(** ** Counting events *)

Lemma count_app (p : event -> bool) (l1 l2 : list event) :
  count p (l1 ++ l2) = (count p l1 + count p l2)%nat.
Proof.
  unfold count. rewrite List.filter_app, length_app. reflexivity.
Qed.

Lemma count_invoke_other (f g k : nat) :
  f <> g -> count (is_invoke f) (repeat (Invoke g) k) = O.
Proof.
  intros Hfg. unfold count. induction k as [|k IH]; simpl.
  - reflexivity.
  - destruct (Nat.eqb_spec f g) as [E|_]; [contradiction|exact IH].
Qed.

(** ** The classifier *)

Lemma includes_nil (c : value) : includes [] c = false.
Proof. destruct c; reflexivity. Qed.

Lemma includes_undefined (codes : list Z) : includes codes VUndefined = false.
Proof. reflexivity. Qed.

Lemma includes_default_iff (c : value) :
  includes DEFAULT_RETRY_CODES c = true <->
  c = VNum 429 \/ c = VNum 409 \/ c = VNum 503.
Proof.
  unfold DEFAULT_RETRY_CODES. split.
  - destruct c as [| |n|s]; simpl; try discriminate.
    intros H. rewrite !orb_true_iff in H.
    destruct H as [H|[H|[H|H]]]; try discriminate;
      apply Z.eqb_eq in H; subst; auto.
  - intros [->|[->| ->]]; reflexivity.
Qed.

(** ** The handler, one attempt *)

Section Handler.
Variables (a : addr) (w : world) (op : Operation).
Hypothesis Hop : heap w !! a = Some op.

Let f := func op.
Let r := behaviour f (invocations (fid f) w).

Lemma handler_success (v : value) :
  await r = Normal v ->
  handler a w =
    Some (Normal (Fulfilled tt),
          {| heap := <[a := with_result v op]> (heap w);
             events := events w ++ [Invoke (fid f); AssignResult a v] |}).
Proof.
  intros Hr. unfold handler, async, handler_body, bind, read.
  rewrite Hop. unfold call. fold f. fold r. rewrite Hr.
  unfold modify, emit, ret. simpl. rewrite Hop. simpl.
  rewrite <- app_assoc. reflexivity.
Qed.

Lemma handler_retryable (err : ErrObj) :
  await r = Abrupt err ->
  includes (retryCodes op) (parseErrorCode err) = true ->
  handler a w =
    Some (Normal (Rejected err),
          {| heap := heap w; events := events w ++ [Invoke (fid f)] |}).
Proof.
  intros Hr Hin. unfold handler, async, handler_body, bind, read.
  rewrite Hop. unfold call. fold f. fold r. rewrite Hr.
  simpl. rewrite Hop, Hin. reflexivity.
Qed.

Lemma handler_terminal (err : ErrObj) :
  await r = Abrupt err ->
  includes (retryCodes op) (parseErrorCode err) = false ->
  code_writable err = true ->
  handler a w =
    Some (Normal (Fulfilled tt),
          {| heap := <[a := with_error (set_code err (parseErrorCode err)) op]> (heap w);
             events := events w ++
               [Invoke (fid f);
                AssignCode err (parseErrorCode err);
                AssignError a (set_code err (parseErrorCode err))] |}).
Proof.
  intros Hr Hin Hwr. unfold handler, async, handler_body, bind, read.
  rewrite Hop. unfold call. fold f. fold r. rewrite Hr.
  simpl. rewrite Hop, Hin, Hwr. unfold modify, emit, ret. simpl. rewrite Hop. simpl.
  rewrite <- !app_assoc. reflexivity.
Qed.

Lemma handler_not_writable (err : ErrObj) :
  await r = Abrupt err ->
  includes (retryCodes op) (parseErrorCode err) = false ->
  code_writable err = false ->
  handler a w =
    Some (Normal (Rejected TypeError_code_not_writable),
          {| heap := heap w; events := events w ++ [Invoke (fid f)] |}).
Proof.
  intros Hr Hin Hwr. unfold handler, async, handler_body, bind, read.
  rewrite Hop. unfold call. fold f. fold r. rewrite Hr.
  simpl. rewrite Hop, Hin, Hwr. reflexivity.
Qed.
End Handler.

Lemma handler_attempt (a : addr) (w : world) (op : Operation) :
  heap w !! a = Some op ->
  exists p op' evs,
    attempt a op (invocations (fid (func op)) w) p op' evs /\
    handler a w =
      Some (Normal p, {| heap := <[a := op']> (heap w); events := events w ++ evs |}).
Proof.
  intros Hop.
  destruct (await (behaviour (func op) (invocations (fid (func op)) w)))
    as [v|err] eqn:Hr.
  - exists (Fulfilled tt), (with_result v op), [Invoke (fid (func op)); AssignResult a v].
    split; [constructor; exact Hr|].
    apply handler_success; assumption.
  - destruct (includes (retryCodes op) (parseErrorCode err)) eqn:Hin.
    + exists (Rejected err), op, [Invoke (fid (func op))].
      split; [econstructor; eassumption|].
      rewrite (list_insert_id _ _ _ Hop).
      apply handler_retryable; assumption.
    + destruct (code_writable err) eqn:Hwr.
      * eexists _, _, _. split; [eapply attempt_terminal; eassumption|].
        apply handler_terminal; assumption.
      * exists (Rejected TypeError_code_not_writable), op, [Invoke (fid (func op))].
        split; [eapply attempt_not_writable; eassumption|].
        rewrite (list_insert_id _ _ _ Hop).
        apply (handler_not_writable a w op Hop err); assumption.
Qed.

(** [handler] is an async function: calling it never throws. *)
Lemma handler_never_throws (a : addr) (w w' : world)
    (c : completion ErrObj (promise ErrObj unit)) :
  handler a w = Some (c, w') -> exists p, c = Normal p.
Proof.
  unfold handler, async, bind. destruct (handler_body a w) as [[c0 w0]|]; [|discriminate].
  unfold ret. intros [= <- _]. eauto.
Qed.

(** ** The queues *)

Lemma Queue_attempt_unfold giveup handle left a w :
  Queue_attempt giveup handle left a w =
    match handle a w with
    | Some (c, w1) =>
        match await c with
        | Normal _ => Some (Fulfilled tt, w1)
        | Abrupt err =>
            match left with
            | O => Some (Rejected (giveup err), w1)
            | S n => Queue_attempt giveup handle n a w1
            end
        end
    | None => None
    end.
Proof.
  destruct left; simpl; unfold bind; destruct (handle a w) as [[c w1]|];
    try reflexivity; destruct (await c); reflexivity.
Qed.

(** The throttled queue always settles: after [k+1] invocations, of which
    the first [k] ended with the handler raising. *)
Lemma Queue_attempt_settles giveup left a w op :
  heap w !! a = Some op ->
  exists p op' k tail,
    queue_settled a op giveup p op' tail /\
    (k <= left)%nat /\
    Queue_attempt giveup handler left a w =
      Some (p, {| heap := <[a := op']> (heap w);
                  events := events w ++ repeat (Invoke (fid (func op))) (S k) ++ tail |}).
Proof.
  revert w. induction left as [|left IH]; intros w Hop;
    destruct (handler_attempt a w op Hop) as (p & op' & evs & Hatt & Hh);
    rewrite Queue_attempt_unfold, Hh; clear Hh;
    destruct Hatt as [v Hr|err Hr Hin|err Hr Hin Hwr|err Hr Hin Hwr]; simpl.
  - exists (Fulfilled tt), (with_result v op), O, [AssignResult a v].
    split; [constructor|]. split; [lia|reflexivity].
  - exists (Rejected (giveup err)), op, O, [].
    split; [constructor|]. split; [lia|reflexivity].
  - eexists (Fulfilled tt), _, O, _.
    split; [apply queue_stored_error; eassumption|]. split; [lia|reflexivity].
  - exists (Rejected (giveup TypeError_code_not_writable)), op, O, [].
    split; [constructor|]. split; [lia|reflexivity].
  - exists (Fulfilled tt), (with_result v op), O, [AssignResult a v].
    split; [constructor|]. split; [lia|reflexivity].
  - rewrite (list_insert_id _ _ _ Hop).
    destruct (IH {| heap := heap w; events := events w ++ [Invoke (fid (func op))] |} Hop)
      as (p & op' & k & tail & Hs & Hk & Hq).
    exists p, op', (S k), tail. split; [exact Hs|]. split; [lia|].
    rewrite Hq. simpl. rewrite <- app_assoc. reflexivity.
  - eexists (Fulfilled tt), _, O, _.
    split; [apply queue_stored_error; eassumption|]. split; [lia|reflexivity].
  - rewrite (list_insert_id _ _ _ Hop).
    destruct (IH {| heap := heap w; events := events w ++ [Invoke (fid (func op))] |} Hop)
      as (p & op' & k & tail & Hs & Hk & Hq).
    exists p, op', (S k), tail. split; [exact Hs|]. split; [lia|].
    rewrite Hq. simpl. rewrite <- app_assoc. reflexivity.
Qed.

Lemma task_unfold fuel this a w :
  task fuel this a w =
    match handler a w with
    | Some (Normal p, w1) => Some (Normal (lift_promise p), w1)
    | Some (Abrupt err, w1) =>
        (n <- read_retryCount a ;;
         if Nat.ltb (retries this) n then
           ret (Abrupt (RetriesExhaustedError "rateLimitedExecutor"%string (retries this) err))
         else
           modify a (with_retryCount (S n)) ;;;
           match fuel with
           | O => stuck
           | S fuel' => p <- PQueue_add (task fuel' this a) ;; ret (Normal p)
           end) w1
    | None => None
    end.
Proof.
  destruct fuel; simpl; unfold bind at 1; destruct (handler a w) as [[[p|err] w1]|];
    reflexivity.
Qed.

(** The task returns the promise of [handler]; its [catch] is never entered,
    whatever the fuel. *)
Lemma PQueue_add_task_settles fuel this a w op :
  heap w !! a = Some op ->
  exists p op' tail,
    queue_settled a op Thrown p op' tail /\
    PQueue_add (task fuel this a) w =
      Some (p, {| heap := <[a := op']> (heap w);
                  events := events w ++ [Invoke (fid (func op))] ++ tail |}).
Proof.
  intros Hop. destruct (handler_attempt a w op Hop) as (p & op' & evs & Hatt & Hh).
  unfold PQueue_add, bind. rewrite task_unfold, Hh. clear Hh.
  destruct Hatt as [v Hr|err Hr Hin|err Hr Hin Hwr|err Hr Hin Hwr]; simpl.
  - eexists _, _, _. split; [apply queue_stored_result|reflexivity].
  - eexists _, _, _. split; [apply (queue_reraised _ _ Thrown err)|reflexivity].
  - eexists _, _, _. split; [apply queue_stored_error; eassumption|reflexivity].
  - eexists _, _, _.
    split; [apply (queue_reraised _ _ Thrown TypeError_code_not_writable)|reflexivity].
Qed.

(** ** The two queue-backed [run] methods *)

Lemma lookup_new (l : list Operation) (x : Operation) :
  (l ++ [x]) !! length l = Some x.
Proof. apply list_lookup_middle. reflexivity. Qed.

Lemma insert_new (l : list Operation) (x y : Operation) :
  <[length l := y]> (l ++ [x]) = l ++ [y].
Proof.
  replace (length l) with (length l + 0)%nat by lia.
  rewrite insert_app_r. reflexivity.
Qed.

Lemma QueueExecutor_run_settles options f opts w :
  exists r op' k tail,
    run_settled (length (heap w)) (Operation_of f opts)
      (q_giveup options) r op' tail /\
    (k <= q_retries options)%nat /\
    QueueExecutor_run (new_QueueExecutor options) f opts w =
      Some (Normal r,
            {| heap := heap w ++ [op'];
               events := events w ++ repeat (Invoke (fid f)) (S k) ++ tail |}).
Proof.
  set (a := length (heap w)). set (op := Operation_of f opts).
  set (w1 := {| heap := heap w ++ [op]; events := events w |}).
  assert (Hop : heap w1 !! a = Some op) by apply lookup_new.
  destruct (Queue_attempt_settles (q_giveup options) (q_retries options) a w1 op Hop)
    as (p & op' & k & tail & Hs & Hk & Hq).
  unfold QueueExecutor_run, async. unfold bind at 1. unfold bind at 1.
  unfold new_op at 1. cbv beta iota zeta.
  fold (Operation_of f opts). fold op. fold a. fold w1. unfold bind at 1.
  change (queue (new_QueueExecutor options) a w1)
    with (Queue_attempt (q_giveup options) handler (q_retries options) a w1).
  rewrite Hq.
  unfold w1, a. simpl. rewrite insert_new.
  destruct Hs as [v|err Hin|err]; unfold bind, read, ret; simpl;
    try rewrite lookup_new; simpl; eexists _, _, k, _.
  - split; [apply run_resolved|]. split; [exact Hk|reflexivity].
  - split; [apply run_rejected_stored; exact Hin|]. split; [exact Hk|reflexivity].
  - split; [apply run_rejected_queue|]. split; [exact Hk|reflexivity].
Qed.

Lemma RateLimitedExecutor_run_settles this f opts w :
  exists r op' tail,
    run_settled (length (heap w)) (RateLimitedOperation_of f opts) Thrown r op' tail /\
    RateLimitedExecutor_run this f opts w =
      Some (Normal r,
            {| heap := heap w ++ [op'];
               events := events w ++ [Invoke (fid f)] ++ tail |}).
Proof.
  set (a := length (heap w)). set (op := RateLimitedOperation_of f opts).
  set (w1 := {| heap := heap w ++ [op]; events := events w |}).
  assert (Hop : heap w1 !! a = Some op) by apply lookup_new.
  destruct (PQueue_add_task_settles (S (retries this)) this a w1 op Hop)
    as (p & op' & tail & Hs & Hq).
  unfold RateLimitedExecutor_run, async. unfold bind at 1. unfold bind at 1.
  unfold new_op at 1. cbv beta iota zeta.
  fold (RateLimitedOperation_of f opts). fold op. fold a. fold w1.
  unfold bind at 1. rewrite Hq.
  unfold w1, a. simpl. rewrite insert_new.
  destruct Hs as [v|err Hin|err]; unfold bind, read, ret; simpl;
    try rewrite lookup_new; simpl; eexists _, _, _.
  - split; [apply run_resolved|reflexivity].
  - split; [apply run_rejected_stored; exact Hin|reflexivity].
  - split; [apply run_rejected_queue|reflexivity].
Qed.

(** The throttled queue retries what the handler re-raises: two failures
    with code 429, then "ok". *)
Example QueueExecutor_run_retries_then_resolves :
  exists w',
    QueueExecutor_run
      (new_QueueExecutor
         {| q_retries := 3; q_giveup := RetriesExhaustedError "functions" 3 |})
      (fails_then_succeeds 0 2 (error_with_code 429) (VStr "ok")) None empty_world =
      Some (Normal (Fulfilled (VStr "ok")), w')
    /\ invocations 0 w' = 3%nat.
Proof. eexists. split; reflexivity. Qed.

Lemma QueueExecutor_run_unfold (this : QueueExecutor) f opts w :
  QueueExecutor_run this f opts w =
    match queue this (length (heap w))
            {| heap := heap w ++ [Operation_of f opts]; events := events w |} with
    | Some (Rejected e, w2) => Some (Normal (Rejected e), w2)
    | Some (Fulfilled _, w2) =>
        match heap w2 !! length (heap w) with
        | Some op =>
            Some (Normal (match error op with
                          | Some e => Rejected (Thrown e)
                          | None => Fulfilled (default VUndefined (result op))
                          end), w2)
        | None => None
        end
    | None => None
    end.
Proof.
  unfold QueueExecutor_run, async, bind, new_op, read, ret, Operation_of.
  destruct (queue this _ _) as [[[[]|e] w2]|]; try reflexivity.
  destruct (heap w2 !! length (heap w)) as [op|]; try reflexivity.
  destruct (error op); reflexivity.
Qed.

Lemma PQueue_add_task_handler fuel this a w p w1 :
  handler a w = Some (Normal p, w1) ->
  PQueue_add (task fuel this a) w = Some (lift_promise p, w1).
Proof.
  intros Hh. unfold PQueue_add, bind. rewrite task_unfold, Hh. reflexivity.
Qed.

Lemma RateLimitedExecutor_run_unfold (this : RateLimitedExecutor) f opts w :
  RateLimitedExecutor_run this f opts w =
    match PQueue_add (task (S (retries this)) this (length (heap w)))
            {| heap := heap w ++ [RateLimitedOperation_of f opts]; events := events w |} with
    | Some (Rejected e, w2) => Some (Normal (Rejected e), w2)
    | Some (Fulfilled _, w2) =>
        match heap w2 !! length (heap w) with
        | Some op =>
            Some (Normal (match error op with
                          | Some e => Rejected (Thrown e)
                          | None => Fulfilled (default VUndefined (result op))
                          end), w2)
        | None => None
        end
    | None => None
    end.
Proof.
  unfold RateLimitedExecutor_run, async. unfold bind at 1. unfold bind at 1.
  unfold new_op at 1. cbv beta iota zeta. fold (RateLimitedOperation_of f opts).
  unfold bind at 1.
  destruct (PQueue_add _ _) as [[[[]|e] w2]|]; try reflexivity.
  unfold bind, read, ret.
  destruct (heap w2 !! length (heap w)) as [op|]; try reflexivity.
  destruct (error op); reflexivity.
Qed.

(** ** The rate-limited executor never resubmits *)

(** Whatever the fuel, [task] hands on the promise of its call of [handler]:
    that call returns a promise even when [func] fails, so nothing reaches
    the [catch] around it. *)
Lemma task_returns_handler_promise fuel this a w op :
  heap w !! a = Some op ->
  exists p w',
    handler a w = Some (Normal p, w')
    /\ task fuel this a w = Some (Normal (lift_promise p), w').
Proof.
  intros Hop. destruct (handler_attempt a w op Hop) as (p & op' & evs & _ & Hh).
  eexists p, _. split; [exact Hh|]. rewrite task_unfold, Hh. reflexivity.
Qed.

Lemma RateLimitedExecutor_run_retryable this f opts w err :
  await (behaviour f (invocations (fid f) w)) = Abrupt err ->
  includes (effective_retryCodes opts) (parseErrorCode err) = true ->
  RateLimitedExecutor_run this f opts w =
    Some (Normal (Rejected (Thrown err)),
          {| heap := heap w ++ [RateLimitedOperation_of f opts];
             events := events w ++ [Invoke (fid f)] |}).
Proof.
  intros Hr Hin.
  set (op := RateLimitedOperation_of f opts).
  set (w1 := {| heap := heap w ++ [op]; events := events w |}).
  assert (Hop : heap w1 !! length (heap w) = Some op) by apply lookup_new.
  pose proof (handler_retryable (length (heap w)) w1 op Hop err Hr Hin) as Hh.
  unfold RateLimitedExecutor_run, async. unfold bind at 1. unfold bind at 1.
  unfold new_op at 1. cbv beta iota zeta.
  fold (RateLimitedOperation_of f opts). fold op. fold w1.
  unfold bind at 1. unfold PQueue_add, bind. rewrite task_unfold, Hh.
  reflexivity.
Qed.

(** C1 (what the code does instead).  With ceiling 1 and a [func] that
    rejects with code 429 on every invocation, [RateLimitedExecutor.run]
    invokes [func] once and rejects with that very failure: it is not
    invoked a second time, [retryCount] stays 0 and no retries-exhausted
    failure is built.  With ceiling 5 and a [func] that rejects twice with
    429 and would then resolve with "ok", [run] rejects after the first
    invocation as well. *)
Theorem C1_rate_limited_run_stops_at_first_retryable_failure :
  RateLimitedExecutor_run {| retries := 1 |} (always_fails 0 (error_with_code 429))
      None empty_world =
    Some (Normal (Rejected (Thrown (error_with_code 429))),
          {| heap := [RateLimitedOperation_of (always_fails 0 (error_with_code 429)) None];
             events := [Invoke 0%nat] |})
  /\ retryCount (RateLimitedOperation_of (always_fails 0 (error_with_code 429)) None)
       = Some 0%nat
  /\ RateLimitedExecutor_run {| retries := 5 |}
       (fails_then_succeeds 0 2 (error_with_code 429) (VStr "ok")) None empty_world =
     Some (Normal (Rejected (Thrown (error_with_code 429))),
           {| heap := [RateLimitedOperation_of
                         (fails_then_succeeds 0 2 (error_with_code 429) (VStr "ok")) None];
              events := [Invoke 0%nat] |}).
Proof.
  split; [|split].
  - apply (RateLimitedExecutor_run_retryable {| retries := 1 |}
             (always_fails 0 (error_with_code 429)) None empty_world);
      reflexivity.
  - reflexivity.
  - apply (RateLimitedExecutor_run_retryable {| retries := 5 |}
             (fails_then_succeeds 0 2 (error_with_code 429) (VStr "ok")) None empty_world);
      reflexivity.
Qed.

(** ** The classifier against its description *)

Lemma js_or_truthy (a b : value) : truthy a = true -> js_or a b = a.
Proof. unfold js_or. intros ->. reflexivity. Qed.

Lemma js_or_falsy (a b : value) : truthy a = false -> js_or a b = b.
Proof. unfold js_or. intros ->. reflexivity. Qed.

Lemma parseErrorCode_first_truthy (err : ErrObj) :
  parseErrorCode err = first_truthy (probes err).
Proof.
  unfold parseErrorCode, probes. simpl.
  set (c := optchain (context err) _).
  set (d := optchain (original err) code).
  set (e := optchain (original err) _).
  destruct (truthy (status err)) eqn:H1.
  { repeat rewrite (js_or_truthy (status err)) by exact H1. reflexivity. }
  rewrite (js_or_falsy (status err)) by exact H1.
  destruct (truthy (code err)) eqn:H2.
  { repeat rewrite (js_or_truthy (code err)) by exact H2. reflexivity. }
  rewrite (js_or_falsy (code err)) by exact H2.
  destruct (truthy c) eqn:H3.
  { repeat rewrite (js_or_truthy c) by exact H3. reflexivity. }
  rewrite (js_or_falsy c) by exact H3.
  destruct (truthy d) eqn:H4.
  { rewrite (js_or_truthy d) by exact H4. reflexivity. }
  rewrite (js_or_falsy d) by exact H4. reflexivity.
Qed.

(** C2 (as stated, refuted).  For the failure [{status: 0, code: 503}] the
    first present location is [status], holding 0; the classifier skips it
    and extracts 503 from [code], which makes the failure retryable under
    the default codes. *)
Lemma C2_first_present_value_does_not_win :
  first_present (probes (error_with_zero_status 503)) = VNum 0
  /\ parseErrorCode (error_with_zero_status 503) = VNum 503
  /\ parseErrorCode (error_with_zero_status 503)
       <> first_present (probes (error_with_zero_status 503))
  /\ includes DEFAULT_RETRY_CODES (parseErrorCode (error_with_zero_status 503)) = true.
Proof.
  repeat split; try reflexivity. discriminate.
Qed.

(** C2 (amended).  The classifier probes the five locations in priority
    order and yields the first truthy value, or the value of the last
    location when none is truthy.  When none of the five locations is
    present the extracted code is undefined and the failure is classified
    non-retryable whatever the retry-code set. *)
Theorem C2_parseErrorCode_first_truthy (err : ErrObj) (codes : list Z) :
  parseErrorCode err = first_truthy (probes err)
  /\ (Forall (fun v => present v = false) (probes err) ->
      parseErrorCode err = VUndefined
      /\ includes codes (parseErrorCode err) = false).
Proof.
  split; [apply parseErrorCode_first_truthy|].
  intros Hall.
  assert (Hu : parseErrorCode err = VUndefined).
  { rewrite parseErrorCode_first_truthy.
    unfold probes in *.
    repeat match goal with
    | H : Forall _ (_ :: _) |- _ => apply Forall_cons_1 in H; destruct H as [? H]
    end.
    repeat match goal with
    | H : present ?v = false |- _ =>
        assert (v = VUndefined) by (destruct v; (reflexivity || discriminate));
        clear H
    end.
    simpl.
    repeat match goal with
    | H : ?v = VUndefined |- _ => rewrite H; clear H
    end.
    reflexivity. }
  split; [exact Hu|]. rewrite Hu. apply includes_undefined.
Qed.

Lemma C2_parseErrorCode_first_truthy_witness :
  parseErrorCode (mkErr "boom" VUndefined VUndefined None None true) = VUndefined
  /\ includes DEFAULT_RETRY_CODES
       (parseErrorCode (mkErr "boom" VUndefined VUndefined None None true)) = false.
Proof.
  apply (C2_parseErrorCode_first_truthy
           (mkErr "boom" VUndefined VUndefined None None true) DEFAULT_RETRY_CODES).
  unfold probes. simpl. repeat constructor.
Defined.

(** ** The handler *)

(** C3 (as stated, refuted).  A record with the default retry codes whose
    [func] rejects with [{status: 429}]: the failure is classified with code
    429, found retryable and re-raised as it is.  Its [code] field is
    assigned zero times and still undefined. *)
Lemma C3_retryable_failure_is_not_annotated :
  handler 0%nat
    {| heap := [Operation_of (always_fails 0 (error_with_status 429)) None];
       events := [] |} =
    Some (Normal (Rejected (error_with_status 429)),
          {| heap := [Operation_of (always_fails 0 (error_with_status 429)) None];
             events := [Invoke 0%nat] |})
  /\ parseErrorCode (error_with_status 429) = VNum 429
  /\ code (error_with_status 429) = VUndefined
  /\ code_assignments
       {| heap := [Operation_of (always_fails 0 (error_with_status 429)) None];
          events := [Invoke 0%nat] |} = 0%nat.
Proof.
  repeat split; reflexivity.
Qed.

(** C3 (amended).  When [func] fails and the failure is classified
    non-retryable, and its [code] field can be written, the handler assigns
    the resolved code to that field exactly once and stores the annotated
    failure in [error]; when the failure is classified retryable, it is
    re-raised as it is and its [code] field is not assigned. *)
Theorem C3_code_attached_once_when_not_retryable
    (a : addr) (w : world) (op : Operation) (err : ErrObj) :
  heap w !! a = Some op ->
  await (behaviour (func op) (invocations (fid (func op)) w)) = Abrupt err ->
  exists p w',
    handler a w = Some (Normal p, w') /\
    if includes (retryCodes op) (parseErrorCode err) then
      p = Rejected err /\ code_assignments w' = code_assignments w
    else
      code_writable err = true ->
      p = Fulfilled tt
      /\ code_assignments w' = S (code_assignments w)
      /\ heap w' !! a = Some (with_error (set_code err (parseErrorCode err)) op)
      /\ code (set_code err (parseErrorCode err)) = parseErrorCode err.
Proof.
  intros Hop Hr.
  destruct (includes (retryCodes op) (parseErrorCode err)) eqn:Hin.
  - eexists _, _. split; [apply handler_retryable; eassumption|].
    split; [reflexivity|].
    unfold code_assignments. simpl. rewrite count_app. simpl. unfold count. simpl. lia.
  - destruct (code_writable err) eqn:Hwr.
    + eexists _, _. split; [apply handler_terminal; eassumption|].
      intros _. split; [reflexivity|]. split; [|split].
      * unfold code_assignments. simpl. rewrite count_app. unfold count. simpl. lia.
      * simpl. apply list_lookup_insert_eq. eapply lookup_lt_Some. exact Hop.
      * reflexivity.
    + eexists _, _.
      split; [apply (handler_not_writable a w op Hop err); assumption|].
      discriminate.
Qed.

Lemma C3_code_attached_once_when_not_retryable_witness :
  exists p w',
    handler 0%nat
      {| heap := [Operation_of (always_fails 0 (error_with_status 404)) None];
         events := [] |} = Some (Normal p, w') /\
    p = Fulfilled tt
    /\ code_assignments w' = 1%nat
    /\ heap w' !! 0%nat =
         Some (with_error (set_code (error_with_status 404) (VNum 404))
                 (Operation_of (always_fails 0 (error_with_status 404)) None))
    /\ code (set_code (error_with_status 404) (VNum 404)) = VNum 404.
Proof.
  destruct (C3_code_attached_once_when_not_retryable 0%nat
              {| heap := [Operation_of (always_fails 0 (error_with_status 404)) None];
                 events := [] |}
              (Operation_of (always_fails 0 (error_with_status 404)) None)
              (error_with_status 404) eq_refl eq_refl) as (p & w' & Hh & H).
  exists p, w'. split; [exact Hh|]. exact (H eq_refl).
Defined.

(** C4 (as stated, refuted).  A record with the default retry codes whose
    [func] rejects with a frozen [{status: 404}]: the failure is classified
    with code 404, which is not retryable, but its [code] cannot be
    assigned.  The handler's promise rejects with the [TypeError] of that
    assignment; nothing is stored in [error]. *)
Lemma C4_frozen_failure_is_not_stored :
  handler 0%nat
    {| heap := [Operation_of (always_fails 0 (frozen_error_with_status 404)) None];
       events := [] |} =
    Some (Normal (Rejected TypeError_code_not_writable),
          {| heap := [Operation_of (always_fails 0 (frozen_error_with_status 404)) None];
             events := [Invoke 0%nat] |})
  /\ includes DEFAULT_RETRY_CODES (parseErrorCode (frozen_error_with_status 404)) = false
  /\ error (Operation_of (always_fails 0 (frozen_error_with_status 404)) None) = None.
Proof.
  repeat split; reflexivity.
Qed.

(** C4 (amended).  One run of the shared handler on the record [op]: if
    [func] succeeds, the value is stored in [result] and the handler
    completes normally; if [func] fails with a code in [retryCodes], the
    handler re-raises that failure and the heap is left as it was; if
    [func] fails with any other code and the failure's [code] field can be
    written, the handler stores in [error] that failure with the code in
    its [code] field, all else as raised, and completes normally. *)
Theorem C4_handler_outcomes (a : addr) (w : world) (op : Operation) :
  heap w !! a = Some op ->
  (forall v,
      await (behaviour (func op) (invocations (fid (func op)) w)) = Normal v ->
      exists w',
        handler a w = Some (Normal (Fulfilled tt), w') /\
        heap w' = <[a := with_result v op]> (heap w) /\
        result (with_result v op) = Some v /\
        error (with_result v op) = error op)
  /\ (forall err,
      await (behaviour (func op) (invocations (fid (func op)) w)) = Abrupt err ->
      includes (retryCodes op) (parseErrorCode err) = true ->
      exists w',
        handler a w = Some (Normal (Rejected err), w') /\
        heap w' = heap w)
  /\ (forall err,
      await (behaviour (func op) (invocations (fid (func op)) w)) = Abrupt err ->
      includes (retryCodes op) (parseErrorCode err) = false ->
      code_writable err = true ->
      exists w' e',
        handler a w = Some (Normal (Fulfilled tt), w') /\
        heap w' = <[a := with_error e' op]> (heap w) /\
        error (with_error e' op) = Some e' /\
        result (with_error e' op) = result op /\
        code e' = parseErrorCode err /\
        message e' = message err /\
        status e' = status err /\
        context e' = context err /\
        original e' = original err).
Proof.
  intros Hop. split; [|split].
  - intros v Hr. eexists. split; [apply handler_success; eassumption|].
    repeat split.
  - intros err Hr Hin. eexists. split; [apply handler_retryable; eassumption|].
    reflexivity.
  - intros err Hr Hin Hwr.
    exists {| heap := <[a := with_error (set_code err (parseErrorCode err)) op]> (heap w);
              events := events w ++
                [Invoke (fid (func op));
                 AssignCode err (parseErrorCode err);
                 AssignError a (set_code err (parseErrorCode err))] |},
           (set_code err (parseErrorCode err)).
    split; [apply handler_terminal; assumption|]. repeat split.
Qed.

Lemma C4_handler_outcomes_witness :
  exists w' e',
    handler 0%nat
      {| heap := [Operation_of (always_fails 0 (error_with_status 404)) None];
         events := [] |} = Some (Normal (Fulfilled tt), w') /\
    heap w' =
      <[0%nat := with_error e' (Operation_of (always_fails 0 (error_with_status 404)) None)]>
        [Operation_of (always_fails 0 (error_with_status 404)) None] /\
    code e' = VNum 404 /\
    status e' = VNum 404.
Proof.
  destruct (proj2 (proj2 (C4_handler_outcomes 0%nat
              {| heap := [Operation_of (always_fails 0 (error_with_status 404)) None];
                 events := [] |}
              (Operation_of (always_fails 0 (error_with_status 404)) None)
              eq_refl)) (error_with_status 404) eq_refl eq_refl eq_refl)
    as (w' & e' & Hh & Hheap & _ & _ & Hcode & _ & Hstatus & _).
  exists w', e'. split; [exact Hh|]. split; [exact Hheap|]. split; [exact Hcode|exact Hstatus].
Defined.

(** ** The inline executor *)

(** C10.  [InlineExecutor.run(func)] invokes [func] once and completes
    exactly as that invocation does: the promise (or the exception) of
    [func] is handed on as it is.  Nothing is queued or retried, no record
    is created, and no failure is classified or annotated. *)
Theorem C10_inline_run_is_func (this : InlineExecutor) (f : Func) (w : world) :
  exists w',
    InlineExecutor_run this f w = Some (behaviour f (invocations (fid f) w), w')
    /\ events w' = events w ++ [Invoke (fid f)]
    /\ invocations (fid f) w' = S (invocations (fid f) w)
    /\ heap w' = heap w
    /\ code_assignments w' = code_assignments w.
Proof.
  eexists. split; [reflexivity|]. simpl. repeat split.
  - unfold invocations. simpl. rewrite count_app. unfold count at 2. simpl.
    rewrite Nat.eqb_refl. simpl. lia.
  - unfold code_assignments. simpl. rewrite count_app. unfold count at 2. simpl. lia.
Qed.

(** ** Failures that are not retryable *)

Lemma new_Queue_resolves_on_completion options handle :
  resolves_on_completion (new_Queue options handle) handle.
Proof.
  intros a w w' Hh. unfold new_Queue. rewrite Queue_attempt_unfold, Hh. reflexivity.
Qed.

Lemma invocations_snoc f w h evs :
  invocations f {| heap := h; events := events w ++ evs |} =
  (invocations f w + count (is_invoke f) evs)%nat.
Proof. unfold invocations. simpl. apply count_app. Qed.

Lemma QueueExecutor_run_terminal (this : QueueExecutor) f opts w err :
  resolves_on_completion (queue this) handler ->
  await (behaviour f (invocations (fid f) w)) = Abrupt err ->
  includes (effective_retryCodes opts) (parseErrorCode err) = false ->
  code_writable err = true ->
  QueueExecutor_run this f opts w =
    Some (Normal (Rejected (Thrown (set_code err (parseErrorCode err)))),
          {| heap := heap w ++
               [with_error (set_code err (parseErrorCode err)) (Operation_of f opts)];
             events := events w ++
               [Invoke (fid f);
                AssignCode err (parseErrorCode err);
                AssignError (length (heap w)) (set_code err (parseErrorCode err))] |}).
Proof.
  intros Hq Hr Hin Hwr.
  set (op := Operation_of f opts).
  set (w1 := {| heap := heap w ++ [op]; events := events w |}).
  assert (Hop : heap w1 !! length (heap w) = Some op) by apply lookup_new.
  pose proof (handler_terminal (length (heap w)) w1 op Hop err Hr Hin Hwr) as Hh.
  apply Hq in Hh.
  unfold QueueExecutor_run, async. unfold bind at 1. unfold bind at 1.
  unfold new_op at 1. cbv beta iota zeta.
  fold (Operation_of f opts). fold op. fold w1.
  unfold bind at 1. rewrite Hh.
  unfold w1. simpl. rewrite insert_new.
  unfold bind, read. simpl. rewrite lookup_new. reflexivity.
Qed.

Lemma RateLimitedExecutor_run_terminal (this : RateLimitedExecutor) f opts w err :
  await (behaviour f (invocations (fid f) w)) = Abrupt err ->
  includes (effective_retryCodes opts) (parseErrorCode err) = false ->
  code_writable err = true ->
  RateLimitedExecutor_run this f opts w =
    Some (Normal (Rejected (Thrown (set_code err (parseErrorCode err)))),
          {| heap := heap w ++
               [with_error (set_code err (parseErrorCode err))
                  (RateLimitedOperation_of f opts)];
             events := events w ++
               [Invoke (fid f);
                AssignCode err (parseErrorCode err);
                AssignError (length (heap w)) (set_code err (parseErrorCode err))] |}).
Proof.
  intros Hr Hin Hwr.
  set (op := RateLimitedOperation_of f opts).
  set (w1 := {| heap := heap w ++ [op]; events := events w |}).
  assert (Hop : heap w1 !! length (heap w) = Some op) by apply lookup_new.
  pose proof (handler_terminal (length (heap w)) w1 op Hop err Hr Hin Hwr) as Hh.
  unfold RateLimitedExecutor_run, async. unfold bind at 1. unfold bind at 1.
  unfold new_op at 1. cbv beta iota zeta.
  fold (RateLimitedOperation_of f opts). fold op. fold w1.
  unfold bind at 1. unfold PQueue_add. unfold bind at 1. rewrite task_unfold, Hh.
  unfold w1. simpl. rewrite insert_new.
  unfold bind, read. simpl. rewrite lookup_new. reflexivity.
Qed.

Lemma RateLimitedExecutor_run_not_writable (this : RateLimitedExecutor) f opts w err :
  await (behaviour f (invocations (fid f) w)) = Abrupt err ->
  includes (effective_retryCodes opts) (parseErrorCode err) = false ->
  code_writable err = false ->
  RateLimitedExecutor_run this f opts w =
    Some (Normal (Rejected (Thrown TypeError_code_not_writable)),
          {| heap := heap w ++ [RateLimitedOperation_of f opts];
             events := events w ++ [Invoke (fid f)] |}).
Proof.
  intros Hr Hin Hwr.
  set (op := RateLimitedOperation_of f opts).
  set (w1 := {| heap := heap w ++ [op]; events := events w |}).
  assert (Hop : heap w1 !! length (heap w) = Some op) by apply lookup_new.
  pose proof (handler_not_writable (length (heap w)) w1 op Hop err Hr Hin Hwr) as Hh.
  unfold RateLimitedExecutor_run, async. unfold bind at 1. unfold bind at 1.
  unfold new_op at 1. cbv beta iota zeta.
  fold (RateLimitedOperation_of f opts). fold op. fold w1.
  unfold bind at 1. unfold PQueue_add, bind. rewrite task_unfold, Hh.
  reflexivity.
Qed.

Lemma invocations_after_terminal f w h err a :
  invocations (fid f)
    {| heap := h;
       events := events w ++
         [Invoke (fid f); AssignCode err (parseErrorCode err);
          AssignError a (set_code err (parseErrorCode err))] |} =
  S (invocations (fid f) w).
Proof.
  rewrite invocations_snoc. unfold count. simpl. rewrite Nat.eqb_refl. simpl. lia.
Qed.

(** C5 (as stated, refuted).  A [QueueExecutor] whose queue allows one
    retry, and a [func] that rejects with a frozen [{status: 404}].  Code
    404 is not retryable, yet the handler raises (the [TypeError] of the
    assignment to [code]), so the queue runs the handler again: [func] is
    invoked twice, and [run] rejects with the queue's retries-exhausted
    failure, not with the failure [func] raised. *)
Lemma C5_frozen_failure_is_retried_by_the_queue :
  exists w',
    QueueExecutor_run
      (new_QueueExecutor
         {| q_retries := 1; q_giveup := RetriesExhaustedError "functions" 1 |})
      (always_fails 0 (frozen_error_with_status 404)) None empty_world =
      Some (Normal (Rejected
                      (RetriesExhaustedError "functions" 1 TypeError_code_not_writable)),
            w')
    /\ includes (effective_retryCodes None)
         (parseErrorCode (frozen_error_with_status 404)) = false
    /\ invocations 0 w' = 2%nat
    /\ is_retries_exhausted
         (RetriesExhaustedError "functions" 1 TypeError_code_not_writable) = true
    /\ heap w' !! 0%nat =
         Some (Operation_of (always_fails 0 (frozen_error_with_status 404)) None)
    /\ error (Operation_of (always_fails 0 (frozen_error_with_status 404)) None) = None.
Proof.
  eexists. split; [reflexivity|]. repeat split.
Qed.

(** C5 (amended).  [QueueExecutor.run]: once the queue's promise for the
    submitted record has resolved, [run] rejects with the record's [error]
    if it is set and resolves with its [result] otherwise.  In particular,
    when [func] fails with a code that is not retryable (404, say) and the
    failure's [code] field can be written, [run] rejects with that failure,
    its code attached; [func] has been invoked once, and the rejection is
    not a retries-exhausted failure. *)
Theorem C5_queue_run_settles_from_record
    (this : QueueExecutor) (f : Func) (opts : option RunOptions) (w : world) :
  (forall w2 op2,
      queue this (length (heap w))
        {| heap := heap w ++ [Operation_of f opts]; events := events w |}
        = Some (Fulfilled tt, w2) ->
      heap w2 !! length (heap w) = Some op2 ->
      QueueExecutor_run this f opts w =
        Some (Normal (match error op2 with
                      | Some e => Rejected (Thrown e)
                      | None => Fulfilled (default VUndefined (result op2))
                      end), w2))
  /\ (forall err,
      resolves_on_completion (queue this) handler ->
      await (behaviour f (invocations (fid f) w)) = Abrupt err ->
      includes (effective_retryCodes opts) (parseErrorCode err) = false ->
      code_writable err = true ->
      exists w',
        QueueExecutor_run this f opts w =
          Some (Normal (Rejected (Thrown (set_code err (parseErrorCode err)))), w')
        /\ code (set_code err (parseErrorCode err)) = parseErrorCode err
        /\ invocations (fid f) w' = S (invocations (fid f) w)
        /\ is_retries_exhausted (Thrown (set_code err (parseErrorCode err))) = false).
Proof.
  split.
  - intros w2 op2 Hq Hop2.
    unfold QueueExecutor_run, async. unfold bind at 1. unfold bind at 1.
    unfold new_op at 1. cbv beta iota zeta.
    fold (Operation_of f opts). unfold bind at 1. rewrite Hq.
    unfold bind, read. rewrite Hop2. destruct (error op2); reflexivity.
  - intros err Hq Hr Hin Hwr. eexists.
    split; [apply QueueExecutor_run_terminal; assumption|].
    split; [reflexivity|]. split; [apply invocations_after_terminal|reflexivity].
Qed.

Lemma C5_queue_run_settles_from_record_witness :
  exists w',
    QueueExecutor_run
      (new_QueueExecutor
         {| q_retries := 3; q_giveup := RetriesExhaustedError "functions" 3 |})
      (always_fails 0 (error_with_status 404)) None empty_world =
      Some (Normal (Rejected (Thrown (set_code (error_with_status 404) (VNum 404)))), w')
    /\ code (set_code (error_with_status 404) (VNum 404)) = VNum 404
    /\ invocations 0 w' = 1%nat
    /\ is_retries_exhausted (Thrown (set_code (error_with_status 404) (VNum 404))) = false.
Proof.
  exact (proj2 (C5_queue_run_settles_from_record
                  (new_QueueExecutor
                     {| q_retries := 3;
                        q_giveup := RetriesExhaustedError "functions" 3 |})
                  (always_fails 0 (error_with_status 404)) None empty_world)
               (error_with_status 404)
               (new_Queue_resolves_on_completion _ handler) eq_refl eq_refl eq_refl).
Defined.

(** ** Retry codes *)

Lemma run_settled_static a op giveup r op' tail :
  run_settled a op giveup r op' tail ->
  func op' = func op /\ retryCodes op' = retryCodes op.
Proof. destruct 1; auto. Qed.

Lemma not_default_code (c : value) :
  ~ (c = VNum 429 \/ c = VNum 409 \/ c = VNum 503) ->
  includes [429; 409; 503] c = false.
Proof.
  intros Hc. destruct (includes [429; 409; 503] c) eqn:Hin; [|reflexivity].
  exfalso. apply Hc. apply includes_default_iff. exact Hin.
Qed.

(** C7.  When the caller gives no [retryCodes] (no options at all, or
    options without the field), the retry codes are 429, 409 and 503.  A
    code is found retryable exactly when it is one of the three.  Both
    [run] methods behave as they do when given [retryCodes: [429, 409,
    503]], and the record they create carries these codes until [run]
    settles.  [QueueExecutor.run] submits to its queue a fresh record whose
    [retryCodes] are these three; the handler, run on that record,
    re-raises a failure of [func] as it is when its code is one of the
    three, and otherwise (the [code] field being writable) stores it, the
    code attached, without raising.  [RateLimitedExecutor.run] rejects with
    the failure of [func] as it is when its code is one of the three, and
    otherwise (the [code] field being writable) with that failure, the code
    attached. *)
Theorem C7_default_retry_codes (opts : option RunOptions) :
  opts = None \/ opts = Some {| opt_retryCodes := None |} ->
  effective_retryCodes opts = [429; 409; 503]
  /\ (forall c, includes (effective_retryCodes opts) c = true <->
                c = VNum 429 \/ c = VNum 409 \/ c = VNum 503)
  /\ (forall (this : QueueExecutor) f w,
        QueueExecutor_run this f opts w =
        QueueExecutor_run this f (Some {| opt_retryCodes := Some [429; 409; 503] |}) w)
  /\ (forall (this : RateLimitedExecutor) f w,
        RateLimitedExecutor_run this f opts w =
        RateLimitedExecutor_run this f (Some {| opt_retryCodes := Some [429; 409; 503] |}) w)
  /\ (forall f,
        retryCodes (Operation_of f opts) = [429; 409; 503]
        /\ retryCodes (RateLimitedOperation_of f opts) = [429; 409; 503])
  /\ (forall this f w, exists r w' op',
        RateLimitedExecutor_run this f opts w = Some (r, w')
        /\ heap w' !! length (heap w) = Some op'
        /\ retryCodes op' = [429; 409; 503])
  /\ (forall (this : QueueExecutor) f w,
        QueueExecutor_run this f opts w =
          match queue this (length (heap w))
                  {| heap := heap w ++
                       [{| func := f; retryCodes := [429; 409; 503];
                           result := None; error := None; retryCount := None |}];
                     events := events w |} with
          | Some (Rejected e, w2) => Some (Normal (Rejected e), w2)
          | Some (Fulfilled _, w2) =>
              match heap w2 !! length (heap w) with
              | Some op =>
                  Some (Normal (match error op with
                                | Some e => Rejected (Thrown e)
                                | None => Fulfilled (default VUndefined (result op))
                                end), w2)
              | None => None
              end
          | None => None
          end)
  /\ (forall f w err,
        await (behaviour f (invocations (fid f) w)) = Abrupt err ->
        (parseErrorCode err = VNum 429 \/ parseErrorCode err = VNum 409
         \/ parseErrorCode err = VNum 503 ->
         handler (length (heap w))
           {| heap := heap w ++
                [{| func := f; retryCodes := [429; 409; 503];
                    result := None; error := None; retryCount := None |}];
              events := events w |} =
           Some (Normal (Rejected err),
                 {| heap := heap w ++
                      [{| func := f; retryCodes := [429; 409; 503];
                          result := None; error := None; retryCount := None |}];
                    events := events w ++ [Invoke (fid f)] |}))
        /\ (~ (parseErrorCode err = VNum 429 \/ parseErrorCode err = VNum 409
               \/ parseErrorCode err = VNum 503) ->
            code_writable err = true ->
            handler (length (heap w))
              {| heap := heap w ++
                   [{| func := f; retryCodes := [429; 409; 503];
                       result := None; error := None; retryCount := None |}];
                 events := events w |} =
              Some (Normal (Fulfilled tt),
                    {| heap := heap w ++
                         [{| func := f; retryCodes := [429; 409; 503];
                             result := None;
                             error := Some (set_code err (parseErrorCode err));
                             retryCount := None |}];
                       events := events w ++
                         [Invoke (fid f);
                          AssignCode err (parseErrorCode err);
                          AssignError (length (heap w))
                            (set_code err (parseErrorCode err))] |})
            /\ code (set_code err (parseErrorCode err)) = parseErrorCode err))
  /\ (forall (this : QueueExecutor) f w err,
        resolves_on_completion (queue this) handler ->
        await (behaviour f (invocations (fid f) w)) = Abrupt err ->
        ~ (parseErrorCode err = VNum 429 \/ parseErrorCode err = VNum 409
           \/ parseErrorCode err = VNum 503) ->
        code_writable err = true ->
        exists w',
          QueueExecutor_run this f opts w =
            Some (Normal (Rejected (Thrown (set_code err (parseErrorCode err)))), w')
          /\ code (set_code err (parseErrorCode err)) = parseErrorCode err
          /\ invocations (fid f) w' = S (invocations (fid f) w))
  /\ (forall (this : RateLimitedExecutor) f w err,
        await (behaviour f (invocations (fid f) w)) = Abrupt err ->
        (parseErrorCode err = VNum 429 \/ parseErrorCode err = VNum 409
         \/ parseErrorCode err = VNum 503 ->
         exists w',
           RateLimitedExecutor_run this f opts w =
             Some (Normal (Rejected (Thrown err)), w')
           /\ invocations (fid f) w' = S (invocations (fid f) w))
        /\ (~ (parseErrorCode err = VNum 429 \/ parseErrorCode err = VNum 409
               \/ parseErrorCode err = VNum 503) ->
            code_writable err = true ->
            exists w',
              RateLimitedExecutor_run this f opts w =
                Some (Normal (Rejected (Thrown (set_code err (parseErrorCode err)))), w')
              /\ code (set_code err (parseErrorCode err)) = parseErrorCode err
              /\ invocations (fid f) w' = S (invocations (fid f) w))).
Proof.
  intros Hopts.
  assert (He : effective_retryCodes opts = [429; 409; 503])
    by (destruct Hopts as [-> | ->]; reflexivity).
  assert (Hinv : forall f w h evs,
             invocations (fid f)
               {| heap := h; events := events w ++ Invoke (fid f) :: evs |}
             = S (invocations (fid f) w + count (is_invoke (fid f)) evs)).
  { intros f w h evs. rewrite invocations_snoc. unfold count. simpl.
    rewrite Nat.eqb_refl. simpl. lia. }
  assert (Hqueue : forall (this : QueueExecutor) f w,
             QueueExecutor_run this f opts w =
             match queue this (length (heap w))
                     {| heap := heap w ++
                          [{| func := f; retryCodes := [429; 409; 503];
                              result := None; error := None; retryCount := None |}];
                        events := events w |} with
             | Some (Rejected e, w2) => Some (Normal (Rejected e), w2)
             | Some (Fulfilled _, w2) =>
                 match heap w2 !! length (heap w) with
                 | Some op =>
                     Some (Normal (match error op with
                                   | Some e => Rejected (Thrown e)
                                   | None => Fulfilled (default VUndefined (result op))
                                   end), w2)
                 | None => None
                 end
             | None => None
             end).
  { intros this f w. rewrite <- He.
    unfold QueueExecutor_run, async, bind, new_op, read, ret.
    destruct (queue this _ _) as [[[[]|e] w2]|]; try reflexivity.
    destruct (heap w2 !! length (heap w)) as [op|]; try reflexivity.
    destruct (error op); reflexivity. }
  assert (Hrate : forall (this : RateLimitedExecutor) f w p w2,
             handler (length (heap w))
               {| heap := heap w ++
                    [{| func := f; retryCodes := [429; 409; 503];
                        result := None; error := None; retryCount := Some O |}];
                  events := events w |} = Some (Normal p, w2) ->
             RateLimitedExecutor_run this f opts w =
             match p with
             | Rejected e => Some (Normal (Rejected (Thrown e)), w2)
             | Fulfilled _ =>
                 match heap w2 !! length (heap w) with
                 | Some op =>
                     Some (Normal (match error op with
                                   | Some e => Rejected (Thrown e)
                                   | None => Fulfilled (default VUndefined (result op))
                                   end), w2)
                 | None => None
                 end
             end).
  { intros this f w p w2 Hh. rewrite <- He in Hh.
    unfold RateLimitedExecutor_run, async. unfold bind at 1. unfold bind at 1.
    unfold new_op at 1. cbv beta iota zeta. unfold bind at 1.
    rewrite (PQueue_add_task_handler _ _ _ _ _ _ Hh).
    destruct p as [[]|e]; [|reflexivity].
    unfold bind, read, ret. simpl.
    destruct (heap w2 !! length (heap w)) as [op|]; [|reflexivity].
    destruct (error op); reflexivity. }
  assert (Hhandler : forall f w err n,
             await (behaviour f (invocations (fid f) w)) = Abrupt err ->
             (parseErrorCode err = VNum 429 \/ parseErrorCode err = VNum 409
              \/ parseErrorCode err = VNum 503 ->
              handler (length (heap w))
                {| heap := heap w ++
                     [{| func := f; retryCodes := [429; 409; 503];
                         result := None; error := None; retryCount := n |}];
                   events := events w |} =
                Some (Normal (Rejected err),
                      {| heap := heap w ++
                           [{| func := f; retryCodes := [429; 409; 503];
                               result := None; error := None; retryCount := n |}];
                         events := events w ++ [Invoke (fid f)] |}))
             /\ (~ (parseErrorCode err = VNum 429 \/ parseErrorCode err = VNum 409
                    \/ parseErrorCode err = VNum 503) ->
                 code_writable err = true ->
                 handler (length (heap w))
                   {| heap := heap w ++
                        [{| func := f; retryCodes := [429; 409; 503];
                            result := None; error := None; retryCount := n |}];
                      events := events w |} =
                   Some (Normal (Fulfilled tt),
                         {| heap := heap w ++
                              [{| func := f; retryCodes := [429; 409; 503];
                                  result := None;
                                  error := Some (set_code err (parseErrorCode err));
                                  retryCount := n |}];
                            events := events w ++
                              [Invoke (fid f);
                               AssignCode err (parseErrorCode err);
                               AssignError (length (heap w))
                                 (set_code err (parseErrorCode err))] |}))).
  { intros f w err n Hr.
    set (op := {| func := f; retryCodes := [429; 409; 503];
                  result := None; error := None; retryCount := n |}).
    set (w1 := {| heap := heap w ++ [op]; events := events w |}).
    assert (Hop1 : heap w1 !! length (heap w) = Some op) by apply lookup_new.
    split.
    - intros Hc.
      exact (handler_retryable (length (heap w)) w1 op Hop1 err Hr
               (proj2 (includes_default_iff _) Hc)).
    - intros Hc Hwr.
      rewrite (handler_terminal (length (heap w)) w1 op Hop1 err Hr
                 (not_default_code _ Hc) Hwr).
      unfold w1. simpl. rewrite insert_new. reflexivity. }
  split; [exact He|].
  split; [|split; [|split; [|split; [|split; [|split; [|split; [|split]]]]]]].
  - intros c. rewrite He. apply includes_default_iff.
  - intros this f w. destruct Hopts as [-> | ->]; reflexivity.
  - intros this f w. destruct Hopts as [-> | ->]; reflexivity.
  - intros f. split; exact He.
  - intros this f w.
    destruct (RateLimitedExecutor_run_settles this f opts w)
      as (r & op' & tail & Hs & Hrun).
    eexists _, _, op'. split; [exact Hrun|]. split; [apply lookup_new|].
    apply run_settled_static in Hs. destruct Hs as [_ ->]. exact He.
  - exact Hqueue.
  - intros f w err Hr. destruct (Hhandler f w err None Hr) as [H1 H2].
    split; [exact H1|]. intros Hc Hwr. split; [exact (H2 Hc Hwr)|reflexivity].
  - intros this f w err Hq Hr Hc Hwr.
    destruct (Hhandler f w err None Hr) as [_ H2].
    eexists. rewrite Hqueue, (Hq _ _ _ (H2 Hc Hwr)). simpl. rewrite lookup_new. simpl.
    split; [reflexivity|]. split; [reflexivity|].
    rewrite Hinv. unfold count. simpl. lia.
  - intros this f w err Hr. destruct (Hhandler f w err (Some O) Hr) as [H1 H2].
    split.
    + intros Hc. eexists. rewrite (Hrate this f w _ _ (H1 Hc)).
      split; [reflexivity|]. rewrite Hinv. unfold count. simpl. lia.
    + intros Hc Hwr. eexists. rewrite (Hrate this f w _ _ (H2 Hc Hwr)).
      simpl. rewrite lookup_new. simpl.
      split; [reflexivity|]. split; [reflexivity|].
      rewrite Hinv. unfold count. simpl. lia.
Qed.

Lemma C7_default_retry_codes_witness :
  effective_retryCodes None = [429; 409; 503]
  /\ (exists w',
        RateLimitedExecutor_run {| retries := 5 |}
          (always_fails 0 (error_with_status 503)) None empty_world =
          Some (Normal (Rejected (Thrown (error_with_status 503))), w')
        /\ invocations 0 w' = 1%nat)
  /\ (exists w',
        RateLimitedExecutor_run {| retries := 5 |}
          (always_fails 0 (error_with_status 500)) None empty_world =
          Some (Normal (Rejected (Thrown (set_code (error_with_status 500) (VNum 500)))),
                w')
        /\ code (set_code (error_with_status 500) (VNum 500)) = VNum 500
        /\ invocations 0 w' = 1%nat).
Proof.
  pose proof (C7_default_retry_codes None (or_introl eq_refl)) as H.
  split; [exact (proj1 H)|].
  destruct H as (_ & _ & _ & _ & _ & _ & _ & _ & _ & H).
  split.
  - exact (proj1 (H {| retries := 5 |} (always_fails 0 (error_with_status 503))
                    empty_world (error_with_status 503) eq_refl)
                 (or_intror (or_intror eq_refl))).
  - refine (proj2 (H {| retries := 5 |} (always_fails 0 (error_with_status 500))
                     empty_world (error_with_status 500) eq_refl) _ eq_refl).
    intros [Hc|[Hc|Hc]]; discriminate Hc.
Defined.

(** C9 (as stated, refuted).  With [retryCodes: []] and a [func] that
    rejects with a frozen [{status: 429}], no code is retryable, but the
    [code] of the failure cannot be assigned: [run] rejects with the
    [TypeError] of the assignment after a single invocation, not with the
    failure of [func], and the record's [error] is left unset. *)
Lemma C9_frozen_failure_is_replaced :
  RateLimitedExecutor_run {| retries := 5 |}
    (always_fails 0 (frozen_error_with_status 429))
    (Some {| opt_retryCodes := Some [] |}) empty_world =
    Some (Normal (Rejected (Thrown TypeError_code_not_writable)),
          {| heap := [RateLimitedOperation_of
                        (always_fails 0 (frozen_error_with_status 429))
                        (Some {| opt_retryCodes := Some [] |})];
             events := [Invoke 0%nat] |})
  /\ TypeError_code_not_writable <> frozen_error_with_status 429
  /\ TypeError_code_not_writable <> set_code (frozen_error_with_status 429) (VNum 429)
  /\ error (RateLimitedOperation_of (always_fails 0 (frozen_error_with_status 429))
              (Some {| opt_retryCodes := Some [] |})) = None.
Proof.
  split; [reflexivity|]. split; [discriminate|]. split; [discriminate|reflexivity].
Qed.

(** C9 (amended).  With [retryCodes: []] the executors use the empty set,
    not the default one: no code is retryable, and when [func] fails with a
    failure whose [code] field can be written, [run] rejects after a single
    invocation with that failure, the resolved code in its [code] field and
    all else as raised. *)
Theorem C9_empty_retry_codes (f : Func) (w : world) (err : ErrObj) :
  await (behaviour f (invocations (fid f) w)) = Abrupt err ->
  code_writable err = true ->
  effective_retryCodes (Some {| opt_retryCodes := Some [] |}) = []
  /\ (forall c, includes (effective_retryCodes (Some {| opt_retryCodes := Some [] |})) c
                = false)
  /\ (forall this : QueueExecutor,
        resolves_on_completion (queue this) handler ->
        exists w' e',
          QueueExecutor_run this f (Some {| opt_retryCodes := Some [] |}) w =
            Some (Normal (Rejected (Thrown e')), w')
          /\ code e' = parseErrorCode err
          /\ message e' = message err
          /\ status e' = status err
          /\ context e' = context err
          /\ original e' = original err
          /\ invocations (fid f) w' = S (invocations (fid f) w))
  /\ (forall this : RateLimitedExecutor,
        exists w' e',
          RateLimitedExecutor_run this f (Some {| opt_retryCodes := Some [] |}) w =
            Some (Normal (Rejected (Thrown e')), w')
          /\ code e' = parseErrorCode err
          /\ message e' = message err
          /\ status e' = status err
          /\ context e' = context err
          /\ original e' = original err
          /\ invocations (fid f) w' = S (invocations (fid f) w)).
Proof.
  intros Hr Hwr. split; [reflexivity|]. split; [intros c; apply includes_nil|]. split.
  - intros this Hq. eexists _, (set_code err (parseErrorCode err)).
    split; [apply QueueExecutor_run_terminal;
            [exact Hq|exact Hr|apply includes_nil|exact Hwr]|].
    repeat (split; [reflexivity|]). apply invocations_after_terminal.
  - intros this. eexists _, (set_code err (parseErrorCode err)).
    split; [apply RateLimitedExecutor_run_terminal;
            [exact Hr|apply includes_nil|exact Hwr]|].
    repeat (split; [reflexivity|]). apply invocations_after_terminal.
Qed.

Lemma C9_empty_retry_codes_witness :
  exists w' e',
    RateLimitedExecutor_run {| retries := 5 |} (always_fails 0 (error_with_status 429))
      (Some {| opt_retryCodes := Some [] |}) empty_world =
      Some (Normal (Rejected (Thrown e')), w')
    /\ code e' = VNum 429
    /\ code (error_with_status 429) = VUndefined
    /\ status e' = VNum 429
    /\ invocations 0 w' = 1%nat.
Proof.
  destruct (proj2 (proj2 (proj2
              (C9_empty_retry_codes (always_fails 0 (error_with_status 429)) empty_world
                 (error_with_status 429) eq_refl eq_refl)))
              {| retries := 5 |})
    as (w' & e' & Hrun & Hcode & _ & Hstatus & _ & _ & Hinv).
  exists w', e'. split; [exact Hrun|]. split; [exact Hcode|].
  split; [reflexivity|]. split; [exact Hstatus|exact Hinv].
Defined.

(** ** Independence of operations *)

(** An attempt is determined by the record and by how often its [func] has
    been invoked; the address only shows in the log. *)
Lemma attempt_deterministic a1 a2 op n p1 p2 op1 op2 evs1 evs2 :
  attempt a1 op n p1 op1 evs1 ->
  attempt a2 op n p2 op2 evs2 ->
  p1 = p2 /\ op1 = op2.
Proof.
  intros [v1 Hr1|e1 Hr1 Hin1|e1 Hr1 Hin1 Hwr1|e1 Hr1 Hin1 Hwr1]
         [v2 Hr2|e2 Hr2 Hin2|e2 Hr2 Hin2 Hwr2|e2 Hr2 Hin2 Hwr2];
    rewrite Hr1 in Hr2; try discriminate;
    injection Hr2 as <-; try (split; reflexivity); congruence.
Qed.

Lemma attempt_rejected a op n e op' evs :
  attempt a op n (Rejected e) op' evs -> op' = op /\ evs = [Invoke (fid (func op))].
Proof. inversion 1; auto. Qed.

Lemma handler_agree a1 a2 w1 w2 op :
  heap w1 !! a1 = Some op ->
  heap w2 !! a2 = Some op ->
  invocations (fid (func op)) w1 = invocations (fid (func op)) w2 ->
  exists p op' evs1 evs2,
    handler a1 w1 =
      Some (Normal p, {| heap := <[a1 := op']> (heap w1); events := events w1 ++ evs1 |})
    /\ handler a2 w2 =
      Some (Normal p, {| heap := <[a2 := op']> (heap w2); events := events w2 ++ evs2 |})
    /\ attempt a1 op (invocations (fid (func op)) w1) p op' evs1
    /\ attempt a2 op (invocations (fid (func op)) w1) p op' evs2.
Proof.
  intros Hop1 Hop2 Hn.
  destruct (handler_attempt a1 w1 op Hop1) as (p1 & op1 & evs1 & Hatt1 & Hh1).
  destruct (handler_attempt a2 w2 op Hop2) as (p2 & op2 & evs2 & Hatt2 & Hh2).
  rewrite <- Hn in Hatt2.
  destruct (attempt_deterministic _ _ _ _ _ _ _ _ _ _ Hatt1 Hatt2) as [<- <-].
  exists p1, op1, evs1, evs2. auto.
Qed.

Lemma Queue_attempt_agree giveup left a1 a2 w1 w2 op :
  heap w1 !! a1 = Some op ->
  heap w2 !! a2 = Some op ->
  invocations (fid (func op)) w1 = invocations (fid (func op)) w2 ->
  exists p op' w1' w2',
    Queue_attempt giveup handler left a1 w1 = Some (p, w1')
    /\ Queue_attempt giveup handler left a2 w2 = Some (p, w2')
    /\ heap w1' = <[a1 := op']> (heap w1)
    /\ heap w2' = <[a2 := op']> (heap w2).
Proof.
  revert w1 w2. induction left as [|left IH]; intros w1 w2 Hop1 Hop2 Hn;
    destruct (handler_agree a1 a2 w1 w2 op Hop1 Hop2 Hn)
      as (p & op' & evs1 & evs2 & Hh1 & Hh2 & Hatt1 & Hatt2);
    rewrite !Queue_attempt_unfold, Hh1, Hh2; clear Hh1 Hh2;
    destruct p as [[]|e]; simpl;
    try (eexists _, _, _, _; repeat split; reflexivity).
  destruct (attempt_rejected _ _ _ _ _ _ Hatt1) as [-> ->].
  destruct (attempt_rejected _ _ _ _ _ _ Hatt2) as [_ ->].
  rewrite !(list_insert_id _ _ _ Hop1), !(list_insert_id _ _ _ Hop2).
  destruct (IH {| heap := heap w1; events := events w1 ++ [Invoke (fid (func op))] |}
               {| heap := heap w2; events := events w2 ++ [Invoke (fid (func op))] |}
               Hop1 Hop2) as (p & op' & w1' & w2' & Hq1 & Hq2 & Hheap1 & Hheap2).
  { rewrite !invocations_snoc. rewrite Hn. reflexivity. }
  exists p, op', w1', w2'. auto.
Qed.

Lemma QueueExecutor_run_agree options f opts w w0 :
  invocations (fid f) w = invocations (fid f) w0 ->
  exists r op' w' w0',
    QueueExecutor_run (new_QueueExecutor options) f opts w = Some (Normal r, w')
    /\ QueueExecutor_run (new_QueueExecutor options) f opts w0 = Some (Normal r, w0')
    /\ heap w' = heap w ++ [op']
    /\ heap w0' = heap w0 ++ [op'].
Proof.
  intros Hn.
  set (op := Operation_of f opts).
  destruct (Queue_attempt_agree (q_giveup options) (q_retries options)
              (length (heap w)) (length (heap w0))
              {| heap := heap w ++ [op]; events := events w |}
              {| heap := heap w0 ++ [op]; events := events w0 |} op
              (lookup_new _ _) (lookup_new _ _) Hn)
    as (p & op' & w' & w0' & Hq & Hq0 & Hheap & Hheap0).
  simpl in Hheap, Hheap0. rewrite insert_new in Hheap, Hheap0.
  rewrite !QueueExecutor_run_unfold. fold op.
  change (queue (new_QueueExecutor options))
    with (Queue_attempt (q_giveup options) handler (q_retries options)).
  rewrite Hq, Hq0.
  destruct p as [[]|e].
  - rewrite Hheap, Hheap0, !lookup_new.
    eexists _, op', w', w0'. repeat split; assumption.
  - eexists _, op', w', w0'. repeat split; assumption.
Qed.

Lemma RateLimitedExecutor_run_agree this f opts w w0 :
  invocations (fid f) w = invocations (fid f) w0 ->
  exists r op' w' w0',
    RateLimitedExecutor_run this f opts w = Some (Normal r, w')
    /\ RateLimitedExecutor_run this f opts w0 = Some (Normal r, w0')
    /\ heap w' = heap w ++ [op']
    /\ heap w0' = heap w0 ++ [op'].
Proof.
  intros Hn.
  set (op := RateLimitedOperation_of f opts).
  destruct (handler_agree (length (heap w)) (length (heap w0))
              {| heap := heap w ++ [op]; events := events w |}
              {| heap := heap w0 ++ [op]; events := events w0 |} op
              (lookup_new _ _) (lookup_new _ _) Hn)
    as (p & op' & evs & evs0 & Hh & Hh0 & _ & _).
  simpl in Hh, Hh0. rewrite insert_new in Hh, Hh0.
  rewrite !RateLimitedExecutor_run_unfold. fold op.
  rewrite (PQueue_add_task_handler _ _ _ _ _ _ Hh).
  rewrite (PQueue_add_task_handler _ _ _ _ _ _ Hh0).
  destruct p as [[]|e]; simpl.
  - rewrite !lookup_new. eexists _, op', _, _. repeat split.
  - eexists _, op', _, _. repeat split.
Qed.

Lemma run_settled_no_invoke a op giveup r op' tail g :
  run_settled a op giveup r op' tail -> count (is_invoke g) tail = O.
Proof. destruct 1; reflexivity. Qed.

Lemma QueueExecutor_run_frame options f opts w r w' g :
  QueueExecutor_run (new_QueueExecutor options) f opts w = Some (r, w') ->
  g <> fid f ->
  invocations g w' = invocations g w.
Proof.
  intros Hrun Hg.
  destruct (QueueExecutor_run_settles options f opts w)
    as (r0 & op' & k & tail & Hs & _ & Hrun0).
  assert (Hw : w' = {| heap := heap w ++ [op'];
                       events := events w ++ repeat (Invoke (fid f)) (S k) ++ tail |})
    by congruence.
  rewrite Hw, invocations_snoc, count_app, (count_invoke_other g (fid f)) by exact Hg.
  rewrite (run_settled_no_invoke _ _ _ _ _ _ g Hs). lia.
Qed.

Lemma RateLimitedExecutor_run_frame this f opts w r w' g :
  RateLimitedExecutor_run this f opts w = Some (r, w') ->
  g <> fid f ->
  invocations g w' = invocations g w.
Proof.
  intros Hrun Hg.
  destruct (RateLimitedExecutor_run_settles this f opts w)
    as (r0 & op' & tail & Hs & Hrun0).
  assert (Hw : w' = {| heap := heap w ++ [op'];
                       events := events w ++ [Invoke (fid f)] ++ tail |})
    by congruence.
  rewrite Hw, invocations_snoc, count_app.
  change [Invoke (fid f)] with (repeat (Invoke (fid f)) 1).
  rewrite (count_invoke_other g (fid f)) by exact Hg.
  rewrite (run_settled_no_invoke _ _ _ _ _ _ g Hs). lia.
Qed.

Section TwoRuns.
Variable run_ex :
  Func -> option RunOptions -> M (completion failure (promise failure value)).
Hypothesis run_agree : forall f opts, depends_on_own_func_only run_ex f opts.
Hypothesis run_frame : forall f opts w r w' g,
  run_ex f opts w = Some (r, w') -> g <> fid f -> invocations g w' = invocations g w.

Lemma two_runs_independent f1 f2 o1 o2 w :
  fid f1 <> fid f2 -> runs_independent run_ex f1 f2 o1 o2 w.
Proof.
  intros Hfid.
  destruct (run_agree f1 o1 w w eq_refl) as (r1 & op1 & w1 & _ & Hrun1 & _ & Hheap1 & _).
  assert (Hn2 : invocations (fid f2) w1 = invocations (fid f2) w).
  { eapply run_frame; [exact Hrun1|]. intros E. apply Hfid. symmetry. exact E. }
  destruct (run_agree f2 o2 w1 w Hn2)
    as (r2 & op2 & w2 & w2' & Hrun2 & Hrun2' & Hheap2 & Hheap2').
  assert (Hn1 : invocations (fid f1) w2' = invocations (fid f1) w).
  { eapply run_frame; [exact Hrun2'|]. exact Hfid. }
  destruct (run_agree f1 o1 w2' w Hn1)
    as (r1' & op1' & w1' & w1'' & Hrun1' & Hrun1'' & Hheap1' & Hheap1'').
  rewrite Hrun1 in Hrun1''. injection Hrun1'' as <- <-.
  assert (op1' = op1) as ->.
  { rewrite Hheap1 in Hheap1''. apply app_inv_head in Hheap1''. congruence. }
  exists r1, r2, op1, op2, w1, w2, w2', w1'.
  repeat split; try assumption.
  - rewrite Hheap2, Hheap1, <- app_assoc. reflexivity.
  - rewrite Hheap1', Hheap2', <- app_assoc. reflexivity.
Qed.
End TwoRuns.

(** ** Calls in flight, step by step *)

Lemma steps_Returned P n a r w : steps P n (Returned a r) w = Some (Returned a r, w).
Proof. induction n as [|n IH]; simpl; [reflexivity|]. unfold bind. simpl. exact IH. Qed.

Lemma step_Queued_unfold P a more w :
  step P (Queued a more) w =
    match handler a w with
    | Some (c, w1) =>
        match await c with
        | Normal _ =>
            match heap w1 !! a with
            | Some op =>
                Some (Returned a (match error op with
                                  | Some e => Rejected (Thrown e)
                                  | None => Fulfilled (default VUndefined (result op))
                                  end), w1)
            | None => None
            end
        | Abrupt err =>
            match more with
            | O => Some (Returned a (Rejected (giveup P err)), w1)
            | S n => Some (Queued a n, w1)
            end
        end
    | None => None
    end.
Proof.
  unfold step, bind, read, ret. destruct (handler a w) as [[c w1]|]; [|reflexivity].
  destruct (await c) as [[]|err].
  - destruct (heap w1 !! a) as [op|]; [|reflexivity]. destruct (error op); reflexivity.
  - destruct more; reflexivity.
Qed.

Lemma steps_S P n s w :
  steps P (S n) s w =
    match step P s w with
    | Some (s', w') => steps P n s' w'
    | None => None
    end.
Proof. reflexivity. Qed.

(** The throttled queue, attempt by attempt. *)
Lemma Queue_attempt_steps options more a w op extra :
  heap w !! a = Some op ->
  exists p w' op',
    Queue_attempt (q_giveup options) handler more a w = Some (p, w')
    /\ heap w' !! a = Some op'
    /\ steps (QueueExecutor_policy options) (S more + extra) (Queued a more) w =
         Some (Returned a (match p with
                           | Rejected e => Rejected e
                           | Fulfilled _ =>
                               match error op' with
                               | Some e => Rejected (Thrown e)
                               | None => Fulfilled (default VUndefined (result op'))
                               end
                           end), w').
Proof.
  revert w op. induction more as [|more IH]; intros w op Hop;
    destruct (handler_attempt a w op Hop) as (p & op' & evs & Hatt & Hh);
    assert (Hlook : <[a := op']> (heap w) !! a = Some op')
      by (apply list_lookup_insert_eq; eapply lookup_lt_Some; exact Hop);
    rewrite Queue_attempt_unfold; simpl Nat.add; rewrite steps_S, step_Queued_unfold, Hh;
    clear Hh.
  - destruct p as [[]|err]; simpl; rewrite ?Hlook; eexists _, _, op';
      (split; [reflexivity|]); (split; [exact Hlook|]); apply steps_Returned.
  - destruct p as [[]|err]; simpl; rewrite ?Hlook.
    + eexists _, _, op'. split; [reflexivity|]. split; [exact Hlook|]. apply steps_Returned.
    + apply (IH {| heap := <[a := op']> (heap w); events := events w ++ evs |} op' Hlook).
Qed.

Lemma attempt_static a op n p op' evs :
  attempt a op n p op' evs ->
  func op' = func op /\ retryCodes op' = retryCodes op /\ retryCount op' = retryCount op.
Proof. destruct 1; auto. Qed.

Lemma attempt_invocations a op n p op' evs g :
  attempt a op n p op' evs ->
  count (is_invoke g) evs = if Nat.eqb g (fid (func op)) then 1%nat else 0%nat.
Proof.
  destruct 1; unfold count; simpl; destruct (Nat.eqb g (fid (func op))); reflexivity.
Qed.

Section Steps.
Variable P : policy.
Hypothesis create_func : forall f opts, func (create P f opts) = f.

Lemma step_own f s w s0 w0 :
  tracks f s w s0 w0 ->
  exists s' w' s0' w0',
    step P s w = Some (s', w')
    /\ step P s0 w0 = Some (s0', w0')
    /\ tracks f s' w' s0' w0'.
Proof.
  intros (Hown & Hstage & Hrec & Hn).
  destruct s as [g opts|a more|a r]; destruct s0 as [g0 opts0|a0 more0|a0 r0];
    try discriminate; simpl in Hown, Hstage, Hrec.
  - injection Hstage as <- <-. subst g.
    eexists _, _, _, _. split; [reflexivity|]. split; [reflexivity|].
    split; [|split; [|split]]; simpl.
    + exists (create P f opts). split; [apply lookup_new|apply create_func].
    + reflexivity.
    + rewrite !lookup_new. reflexivity.
    + exact Hn.
  - injection Hstage as <-. destruct Hown as (op & Hop & Hf).
    assert (Hop0 : heap w0 !! a0 = Some op) by congruence.
    subst f.
    destruct (handler_agree a a0 w w0 op Hop Hop0 Hn)
      as (p & op' & evs & evs0 & Hh & Hh0 & Hatt & Hatt0).
    assert (Hlook : <[a := op']> (heap w) !! a = Some op')
      by (apply list_lookup_insert_eq; eapply lookup_lt_Some; exact Hop).
    assert (Hlook0 : <[a0 := op']> (heap w0) !! a0 = Some op')
      by (apply list_lookup_insert_eq; eapply lookup_lt_Some; exact Hop0).
    assert (Hf' : func op' = func op) by (eapply attempt_static; exact Hatt).
    rewrite !step_Queued_unfold, Hh, Hh0.
    assert (Hn' : invocations (fid (func op))
                    {| heap := <[a := op']> (heap w); events := events w ++ evs |} =
                  invocations (fid (func op))
                    {| heap := <[a0 := op']> (heap w0); events := events w0 ++ evs0 |}).
    { rewrite !invocations_snoc, Hn.
      rewrite (attempt_invocations _ _ _ _ _ _ _ Hatt).
      rewrite (attempt_invocations _ _ _ _ _ _ _ Hatt0). reflexivity. }
    destruct p as [[]|err]; simpl; rewrite ?Hlook, ?Hlook0.
    + eexists _, _, _, _. split; [reflexivity|]. split; [reflexivity|].
      split; [|split; [|split]]; simpl.
      * exists op'. auto.
      * reflexivity.
      * rewrite Hlook, Hlook0. reflexivity.
      * exact Hn'.
    + destruct more as [|more];
        (eexists _, _, _, _; split; [reflexivity|]; split; [reflexivity|];
         split; [|split; [|split]]; simpl;
         [exists op'; auto | reflexivity | rewrite Hlook, Hlook0; reflexivity | exact Hn']).
  - injection Hstage as <-.
    eexists _, _, _, _. split; [reflexivity|]. split; [reflexivity|].
    split; [exact Hown|]. split; [reflexivity|]. split; [exact Hrec|exact Hn].
Qed.

(** A step of a call with [f] leaves alone the records of calls with
    another [func], and that [func]'s count. *)
Lemma step_other f g s w s' w' :
  owns f s w ->
  fid f <> fid g ->
  step P s w = Some (s', w') ->
  (forall b op, heap w !! b = Some op -> func op = g -> heap w' !! b = Some op)
  /\ invocations (fid g) w' = invocations (fid g) w.
Proof.
  intros Hown Hfg Hstep.
  destruct s as [g0 opts|a more|a r]; simpl in Hown.
  - injection Hstep as <- <-. split; [|reflexivity].
    intros b op Hb _. simpl. apply lookup_app_l_Some. exact Hb.
  - destruct Hown as (opa & Hop & Hf).
    destruct (handler_attempt a w opa Hop) as (p & op' & evs & Hatt & Hh).
    rewrite step_Queued_unfold, Hh in Hstep.
    assert (Hw' : w' = {| heap := <[a := op']> (heap w); events := events w ++ evs |}).
    { assert (Hlook : <[a := op']> (heap w) !! a = Some op')
        by (apply list_lookup_insert_eq; eapply lookup_lt_Some; exact Hop).
      destruct p as [[]|err]; simpl in Hstep.
      - rewrite Hlook in Hstep. congruence.
      - destruct more; congruence. }
    subst w'. split.
    + intros b op Hb Hg. simpl. rewrite list_lookup_insert_ne; [exact Hb|].
      intros ->. apply Hfg. congruence.
    + rewrite invocations_snoc, (attempt_invocations _ _ _ _ _ _ _ Hatt).
      destruct (Nat.eqb_spec (fid g) (fid (func opa))) as [E|_]; [|lia].
      exfalso. apply Hfg. congruence.
  - injection Hstep as <- <-. auto.
Qed.

Lemma tracks_other f g s w s' w' t t0 w0 :
  owns f s w ->
  fid f <> fid g ->
  step P s w = Some (s', w') ->
  tracks g t w t0 w0 ->
  tracks g t w' t0 w0.
Proof.
  intros Hown Hfg Hstep (Hown_t & Hstage & Hrec & Hn).
  destruct (step_other f g s w s' w' Hown Hfg Hstep) as [Hkeep Hcount].
  assert (Hrec' : record_of t w' = record_of t w).
  { destruct t as [g0 opts|b more|b r]; simpl in *; [reflexivity| |];
      destruct Hown_t as (op & Hb & Hg); rewrite Hb; apply Hkeep; assumption. }
  split; [|split; [exact Hstage|split; [congruence|congruence]]].
  destruct t as [g0 opts|b more|b r]; simpl in *; [exact Hown_t| |];
    destruct Hown_t as (op & Hb & Hg); exists op; split; auto.
Qed.

Lemma tracks_owns f s w s0 w0 : tracks f s w s0 w0 -> owns f s w.
Proof. intros [H _]. exact H. Qed.

(** Two calls with distinct [func]s, their steps interleaved as [sched]
    says: each call ends where its own steps alone take it. *)
Lemma interleave_tracks f1 f2 sched :
  fid f1 <> fid f2 ->
  forall s1 s2 w s1_0 w1 s2_0 w2,
    tracks f1 s1 w s1_0 w1 ->
    tracks f2 s2 w s2_0 w2 ->
    exists s1' s2' w' s1_0' w1' s2_0' w2',
      interleave P sched s1 s2 w = Some ((s1', s2'), w')
      /\ steps P (count_occ bool_dec sched true) s1_0 w1 = Some (s1_0', w1')
      /\ steps P (count_occ bool_dec sched false) s2_0 w2 = Some (s2_0', w2')
      /\ tracks f1 s1' w' s1_0' w1'
      /\ tracks f2 s2' w' s2_0' w2'.
Proof.
  intros Hfid. induction sched as [|[|] sched IH]; intros s1 s2 w s1_0 w1 s2_0 w2 H1 H2.
  - eexists _, _, _, _, _, _, _. repeat split; try reflexivity; apply H1 || apply H2.
  - destruct (step_own f1 s1 w s1_0 w1 H1) as (s1' & w' & s1_0' & w1' & Hs & Hs0 & H1').
    pose proof (tracks_other f1 f2 s1 w s1' w' s2 s2_0 w2 (tracks_owns _ _ _ _ _ H1)
                  Hfid Hs H2) as H2'.
    destruct (IH s1' s2 w' s1_0' w1' s2_0 w2 H1' H2')
      as (t1 & t2 & wI & t1_0 & wA & t2_0 & wB & Hi & Ha & Hb & Ht1 & Ht2).
    exists t1, t2, wI, t1_0, wA, t2_0, wB.
    split; [simpl; unfold bind; rewrite Hs; exact Hi|].
    split; [simpl; unfold bind; rewrite Hs0; exact Ha|].
    split; [exact Hb|]. split; assumption.
  - destruct (step_own f2 s2 w s2_0 w2 H2) as (s2' & w' & s2_0' & w2' & Hs & Hs0 & H2').
    assert (Hfid' : fid f2 <> fid f1) by (intros E; apply Hfid; symmetry; exact E).
    pose proof (tracks_other f2 f1 s2 w s2' w' s1 s1_0 w1 (tracks_owns _ _ _ _ _ H2)
                  Hfid' Hs H1) as H1'.
    destruct (IH s1 s2' w' s1_0 w1 s2_0' w2' H1' H2')
      as (t1 & t2 & wI & t1_0 & wA & t2_0 & wB & Hi & Ha & Hb & Ht1 & Ht2).
    exists t1, t2, wI, t1_0, wA, t2_0, wB.
    split; [simpl; unfold bind; rewrite Hs; exact Hi|].
    split; [exact Ha|].
    split; [simpl; unfold bind; rewrite Hs0; exact Hb|]. split; assumption.
Qed.
End Steps.

Lemma QueueExecutor_run_in_steps options :
  run_in_steps (QueueExecutor_policy options)
    (QueueExecutor_run (new_QueueExecutor options)).
Proof.
  intros f opts w extra.
  set (w1 := {| heap := heap w ++ [Operation_of f opts]; events := events w |}).
  destruct (Queue_attempt_steps options (q_retries options) (length (heap w)) w1
              (Operation_of f opts) extra (lookup_new _ _))
    as (p & w' & op' & Hq & Hlook & Hsteps).
  rewrite QueueExecutor_run_unfold.
  change (queue (new_QueueExecutor options))
    with (Queue_attempt (q_giveup options) handler (q_retries options)).
  fold w1. rewrite Hq.
  change (S (S (ceiling (QueueExecutor_policy options))) + extra)%nat
    with (S (S (q_retries options) + extra)).
  rewrite steps_S.
  change (step (QueueExecutor_policy options) (Called f opts) w)
    with (Some (Queued (length (heap w)) (q_retries options), w1)).
  cbv beta iota. rewrite Hsteps.
  destruct p as [[]|e].
  - rewrite Hlook. eexists _, _. split; reflexivity.
  - eexists _, _. split; reflexivity.
Qed.

Lemma RateLimitedExecutor_run_in_steps this :
  run_in_steps RateLimitedExecutor_policy (RateLimitedExecutor_run this).
Proof.
  intros f opts w extra.
  set (w1 := {| heap := heap w ++ [RateLimitedOperation_of f opts]; events := events w |}).
  destruct (handler_attempt (length (heap w)) w1 (RateLimitedOperation_of f opts)
              (lookup_new _ _)) as (p & op' & evs & Hatt & Hh).
  rewrite RateLimitedExecutor_run_unfold. fold w1.
  rewrite (PQueue_add_task_handler _ _ _ _ _ _ Hh).
  change (S (S (ceiling RateLimitedExecutor_policy)) + extra)%nat with (S (S extra)).
  rewrite steps_S.
  change (step RateLimitedExecutor_policy (Called f opts) w)
    with (Some (Queued (length (heap w)) O, w1)).
  cbv beta iota. rewrite steps_S, step_Queued_unfold, Hh.
  unfold w1. simpl heap. rewrite insert_new.
  destruct p as [[]|e]; simpl.
  - rewrite lookup_new. eexists _, _. split; [reflexivity|]. apply steps_Returned.
  - eexists _, _. split; [reflexivity|]. apply steps_Returned.
Qed.

Section Invariants.
Variable P : policy.
Hypothesis create_func : forall f opts, func (create P f opts) = f.
Hypothesis create_unset : forall f opts,
  result (create P f opts) = None /\ error (create P f opts) = None.

Lemma step_fields_ok s w s' w' :
  fields_ok s w -> step P s w = Some (s', w') -> fields_ok s' w'.
Proof.
  intros Hok Hstep. destruct s as [f opts|a more|a r]; simpl in Hok.
  - injection Hstep as <- <-. simpl. exists (create P f opts).
    split; [apply lookup_new|apply create_unset].
  - destruct Hok as (op & Hop & Hres & Herr).
    destruct (handler_attempt a w op Hop) as (p & op' & evs & Hatt & Hh).
    rewrite step_Queued_unfold, Hh in Hstep.
    assert (Hlook : <[a := op']> (heap w) !! a = Some op')
      by (apply list_lookup_insert_eq; eapply lookup_lt_Some; exact Hop).
    destruct Hatt as [v Hr|err Hr Hin|err Hr Hin Hwr|err Hr Hin Hwr]; simpl in Hstep.
    + rewrite Hlook in Hstep. simpl in Hstep. rewrite Herr in Hstep.
      injection Hstep as <- <-. simpl. eexists. split; [exact Hlook|].
      left. exists v. simpl. auto.
    + destruct more as [|more]; injection Hstep as <- <-; simpl;
        (eexists; split; [exact Hlook|]); auto.
      right. right. eexists. auto.
    + rewrite Hlook in Hstep. simpl in Hstep.
      injection Hstep as <- <-. simpl. eexists. split; [exact Hlook|].
      right. left. eexists. simpl. auto.
    + destruct more as [|more]; injection Hstep as <- <-; simpl;
        (eexists; split; [exact Hlook|]); auto.
      right. right. eexists. auto.
  - injection Hstep as <- <-. exact Hok.
Qed.

Lemma steps_fields_ok n s w s' w' :
  fields_ok s w -> steps P n s w = Some (s', w') -> fields_ok s' w'.
Proof.
  revert s w. induction n as [|n IH]; intros s w Hok Hsteps.
  - injection Hsteps as <- <-. exact Hok.
  - rewrite steps_S in Hsteps.
    destruct (step P s w) as [[s1 w1]|] eqn:Hstep; [|discriminate].
    eapply IH; [|exact Hsteps]. eapply step_fields_ok; eassumption.
Qed.

Variable run_ex :
  Func -> option RunOptions -> M (completion failure (promise failure value)).
Hypothesis run_steps : run_in_steps P run_ex.

Lemma interleaved_runs f1 f2 o1 o2 w :
  fid f1 <> fid f2 -> interleaved_as_alone P run_ex f1 f2 o1 o2 w.
Proof.
  intros Hfid sched Hc1 Hc2.
  assert (H1 : tracks f1 (Called f1 o1) w (Called f1 o1) w) by (repeat split).
  assert (H2 : tracks f2 (Called f2 o2) w (Called f2 o2) w) by (repeat split).
  destruct (interleave_tracks P create_func f1 f2 sched Hfid _ _ _ _ _ _ _ H1 H2)
    as (s1 & s2 & w' & s1_0 & w1 & s2_0 & w2 & Hi & Hs1 & Hs2 & Ht1 & Ht2).
  destruct (run_steps f1 o1 w (count_occ bool_dec sched true - S (S (ceiling P)))%nat)
    as (r1 & w1' & Hrun1 & Hsteps1).
  destruct (run_steps f2 o2 w (count_occ bool_dec sched false - S (S (ceiling P)))%nat)
    as (r2 & w2' & Hrun2 & Hsteps2).
  replace (S (S (ceiling P)) + (count_occ bool_dec sched true - S (S (ceiling P))))%nat
    with (count_occ bool_dec sched true) in Hsteps1 by lia.
  replace (S (S (ceiling P)) + (count_occ bool_dec sched false - S (S (ceiling P))))%nat
    with (count_occ bool_dec sched false) in Hsteps2 by lia.
  rewrite Hsteps1 in Hs1. injection Hs1 as <- <-.
  rewrite Hsteps2 in Hs2. injection Hs2 as <- <-.
  destruct Ht1 as (Hown1 & Hstage1 & Hrec1 & _).
  destruct Ht2 as (Hown2 & Hstage2 & Hrec2 & _).
  destruct s1 as [| |a1 r1']; try discriminate. injection Hstage1 as ->.
  destruct s2 as [| |a2 r2']; try discriminate. injection Hstage2 as ->.
  simpl in Hown1, Hown2, Hrec1, Hrec2.
  destruct Hown1 as (rec1 & Ha1 & Hf1). destruct Hown2 as (rec2 & Ha2 & Hf2).
  exists a1, a2, r1, r2, rec1, rec2, w', w1', w2'.
  repeat split; try assumption; congruence.
Qed.
End Invariants.

Lemma steps_total (P : policy)
    (create_func : forall f opts, func (create P f opts) = f) f n s w :
  owns f s w ->
  exists s' w', steps P n s w = Some (s', w') /\ owns f s' w'.
Proof.
  revert s w. induction n as [|n IH]; intros s w Hown.
  - exists s, w. split; [reflexivity|exact Hown].
  - assert (Ht : tracks f s w s w) by (repeat split; exact Hown).
    destruct (step_own P create_func f s w s w Ht) as (s1 & w1 & s2 & w2 & Hstep & _ & Ht1).
    destruct (IH s1 w1 (tracks_owns _ _ _ _ _ Ht1)) as (s' & w' & Hsteps & Hown').
    exists s', w'. split; [|exact Hown']. rewrite steps_S, Hstep. exact Hsteps.
Qed.

(** ** Result and error of a record *)

(** C6 (as stated, refuted).  Ceiling 1, default retry codes, a [func] that
    rejects with code 429: the promise of [RateLimitedExecutor.run] has
    settled (it rejected), and the record holds neither a [result] nor an
    [error]. *)
Lemma C6_settled_with_neither_field :
  exists w' op',
    RateLimitedExecutor_run {| retries := 1 |} (always_fails 0 (error_with_code 429))
      None empty_world =
      Some (Normal (Rejected (Thrown (error_with_code 429))), w')
    /\ heap w' !! 0%nat = Some op'
    /\ result op' = None
    /\ error op' = None.
Proof.
  eexists _, _. split; [reflexivity|]. split; [reflexivity|]. split; reflexivity.
Qed.

(** C6 (amended).  A call of [run] on either executor, after any number of
    its steps: while its record is queued (the call is pending) neither
    [result] nor [error] is set; once [run] has returned, at most one of
    them is set: [result] alone when [run] resolved, [error] alone when
    [run] rejects with the stored failure, and neither when [run] rejects
    because the queue's promise rejected.  The steps, taken in a row, are
    [run]. *)
Theorem C6_at_most_one_of_result_and_error
    (f : Func) (opts : option RunOptions) (w : world) (n : nat) :
  (forall options,
      (exists s w',
          steps (QueueExecutor_policy options) n (Called f opts) w = Some (s, w')
          /\ fields_ok s w')
      /\ run_in_steps (QueueExecutor_policy options)
           (QueueExecutor_run (new_QueueExecutor options)))
  /\ (forall this,
      (exists s w',
          steps RateLimitedExecutor_policy n (Called f opts) w = Some (s, w')
          /\ fields_ok s w')
      /\ run_in_steps RateLimitedExecutor_policy (RateLimitedExecutor_run this)).
Proof.
  split.
  - intros options. split; [|apply QueueExecutor_run_in_steps].
    destruct (steps_total (QueueExecutor_policy options) (fun _ _ => eq_refl)
                f n (Called f opts) w eq_refl) as (s & w' & Hsteps & _).
    exists s, w'. split; [exact Hsteps|].
    eapply (steps_fields_ok (QueueExecutor_policy options)); [| |exact Hsteps].
    + intros f0 opts0. split; reflexivity.
    + exact I.
  - intros this. split; [|apply RateLimitedExecutor_run_in_steps].
    destruct (steps_total RateLimitedExecutor_policy (fun _ _ => eq_refl)
                f n (Called f opts) w eq_refl) as (s & w' & Hsteps & _).
    exists s, w'. split; [exact Hsteps|].
    eapply (steps_fields_ok RateLimitedExecutor_policy); [| |exact Hsteps].
    + intros f0 opts0. split; reflexivity.
    + exact I.
Qed.

(** ** Two calls on one executor *)

(** C8.  Two calls of [run] on one executor with operations whose [func]s
    are distinct closures.  Made one after the other, in either order, each
    call creates a record of its own next to the other one, leaves the
    other's record as it is, and settles exactly as it does on its own.
    The same holds when the steps of the two calls are interleaved in any
    way: each call returns what it returns alone and leaves the record it
    leaves alone.  The outcome of a call is the same in any two worlds in
    which its own [func] has been invoked equally often. *)
Theorem C8_runs_share_no_state
    (f1 f2 : Func) (o1 o2 : option RunOptions) (w : world) :
  fid f1 <> fid f2 ->
  (forall options,
      runs_independent (QueueExecutor_run (new_QueueExecutor options)) f1 f2 o1 o2 w
      /\ depends_on_own_func_only (QueueExecutor_run (new_QueueExecutor options)) f1 o1
      /\ run_in_steps (QueueExecutor_policy options)
           (QueueExecutor_run (new_QueueExecutor options))
      /\ interleaved_as_alone (QueueExecutor_policy options)
           (QueueExecutor_run (new_QueueExecutor options)) f1 f2 o1 o2 w)
  /\ (forall this,
      runs_independent (RateLimitedExecutor_run this) f1 f2 o1 o2 w
      /\ depends_on_own_func_only (RateLimitedExecutor_run this) f1 o1
      /\ run_in_steps RateLimitedExecutor_policy (RateLimitedExecutor_run this)
      /\ interleaved_as_alone RateLimitedExecutor_policy
           (RateLimitedExecutor_run this) f1 f2 o1 o2 w).
Proof.
  intros Hfid. split.
  - intros options. split; [|split; [|split]].
    + apply two_runs_independent; [| |exact Hfid].
      * intros f opts w' w0. apply QueueExecutor_run_agree.
      * intros f opts w' r w'' g. apply QueueExecutor_run_frame.
    + intros w' w0. apply QueueExecutor_run_agree.
    + apply QueueExecutor_run_in_steps.
    + apply interleaved_runs; [reflexivity|apply QueueExecutor_run_in_steps|exact Hfid].
  - intros this. split; [|split; [|split]].
    + apply two_runs_independent; [| |exact Hfid].
      * intros f opts w' w0. apply RateLimitedExecutor_run_agree.
      * intros f opts w' r w'' g. apply RateLimitedExecutor_run_frame.
    + intros w' w0. apply RateLimitedExecutor_run_agree.
    + apply RateLimitedExecutor_run_in_steps.
    + apply interleaved_runs;
        [reflexivity|apply RateLimitedExecutor_run_in_steps|exact Hfid].
Qed.

Lemma C8_runs_share_no_state_witness :
  runs_independent (RateLimitedExecutor_run {| retries := 1 |})
    (always_fails 0 (error_with_status 404))
    (fails_then_succeeds 1 0 (error_with_code 429) (VStr "ok"))
    None None empty_world.
Proof.
  apply (C8_runs_share_no_state
           (always_fails 0 (error_with_status 404))
           (fails_then_succeeds 1 0 (error_with_code 429) (VStr "ok"))
           None None empty_world).
  simpl. lia.
Defined.

(** * Further properties of the code *)

(** ** More on the classifier *)

Lemma includes_iff (codes : list Z) (c : value) :
  includes codes c = true <-> exists n, c = VNum n /\ In n codes.
Proof.
  split.
  - destruct c as [| |n|s]; simpl; try discriminate.
    intros H. apply existsb_exists in H. destruct H as (m & Hm & Heq).
    apply Z.eqb_eq in Heq. subst m. eauto.
  - intros (n & -> & Hn). simpl. apply existsb_exists.
    exists n. split; [exact Hn|apply Z.eqb_refl].
Qed.

(** X1.  Attaching the extracted code to a failure does not change what is
    extracted from it: a failure that was annotated and is classified again
    gets the same code, and so the same verdict under any retry codes. *)
Theorem parseErrorCode_set_code_idempotent (err : ErrObj) (codes : list Z) :
  parseErrorCode (set_code err (parseErrorCode err)) = parseErrorCode err
  /\ includes codes (parseErrorCode (set_code err (parseErrorCode err)))
     = includes codes (parseErrorCode err).
Proof.
  assert (H : parseErrorCode (set_code err (parseErrorCode err)) = parseErrorCode err).
  { unfold parseErrorCode, set_code. simpl.
    set (n := optchain (context err) _).
    set (d := optchain (original err) code).
    set (e := optchain (original err) _).
    destruct (truthy (status err)) eqn:H1.
    { repeat rewrite (js_or_truthy (status err)) by exact H1. reflexivity. }
    repeat rewrite (js_or_falsy (status err)) by exact H1.
    destruct (truthy (code err)) eqn:H2.
    { repeat rewrite (js_or_truthy (code err)) by exact H2. reflexivity. }
    repeat rewrite (js_or_falsy (code err)) by exact H2.
    destruct (truthy n) eqn:H3.
    { repeat rewrite (js_or_truthy n) by exact H3. reflexivity. }
    repeat rewrite (js_or_falsy n) by exact H3.
    destruct (truthy d) eqn:H4.
    { repeat rewrite (js_or_truthy d) by exact H4. reflexivity. }
    repeat rewrite (js_or_falsy d) by exact H4.
    destruct (truthy e) eqn:H5.
    { repeat rewrite (js_or_truthy e) by exact H5. reflexivity. }
    repeat first [ rewrite (js_or_falsy e) by exact H5
                 | rewrite (js_or_falsy n) by exact H3
                 | rewrite (js_or_falsy d) by exact H4 ].
    reflexivity. }
  split; [exact H|]. rewrite H. reflexivity.
Qed.

(** X2.  A truthy [code] that is not a number, such as the "ECONNRESET" of a
    network failure, is what the classifier extracts when [status] is falsy,
    whatever the nested or wrapped locations hold, and it is retryable under
    no retry codes. *)
Theorem string_code_is_never_retryable (err : ErrObj) (s : string) (codes : list Z) :
  truthy (status err) = false ->
  code err = VStr s ->
  s <> EmptyString ->
  parseErrorCode err = VStr s
  /\ includes codes (parseErrorCode err) = false.
Proof.
  intros Hs Hc Hne.
  assert (Ht : truthy (code err) = true).
  { rewrite Hc. simpl. destruct s; [contradiction|reflexivity]. }
  assert (H : parseErrorCode err = VStr s).
  { unfold parseErrorCode.
    rewrite (js_or_falsy (status err)) by exact Hs.
    repeat rewrite (js_or_truthy (code err)) by exact Ht. exact Hc. }
  split; [exact H|]. rewrite H. reflexivity.
Qed.

Lemma string_code_is_never_retryable_witness :
  parseErrorCode
    {| message := "socket hang up"; status := VUndefined; code := VStr "ECONNRESET";
       context := Some {| response := Some {| statusCode := VNum 429 |} |};
       original := None; code_writable := true |} = VStr "ECONNRESET"
  /\ includes DEFAULT_RETRY_CODES
       (parseErrorCode
          {| message := "socket hang up"; status := VUndefined; code := VStr "ECONNRESET";
             context := Some {| response := Some {| statusCode := VNum 429 |} |};
             original := None; code_writable := true |}) = false.
Proof.
  apply (string_code_is_never_retryable
           {| message := "socket hang up"; status := VUndefined; code := VStr "ECONNRESET";
              context := Some {| response := Some {| statusCode := VNum 429 |} |};
              original := None; code_writable := true |} "ECONNRESET" DEFAULT_RETRY_CODES).
  - reflexivity.
  - reflexivity.
  - discriminate.
Defined.

(** X3.  The wrapped original is consulted only when the failure's own three
    locations are all falsy: as soon as one of them is truthy, what the
    failure wraps has no influence on the extracted code. *)
Theorem own_code_shadows_original (err : ErrObj) (o : option ErrObj) :
  truthy (status err) = true
  \/ truthy (code err) = true
  \/ truthy (optchain (context err) (fun c => optchain (response c) statusCode)) = true ->
  parseErrorCode (with_original o err) = parseErrorCode err.
Proof.
  unfold parseErrorCode, with_original. simpl.
  set (n := optchain (context err) _).
  intros H.
  destruct (truthy (status err)) eqn:H1.
  { repeat rewrite (js_or_truthy (status err)) by exact H1. reflexivity. }
  repeat rewrite (js_or_falsy (status err)) by exact H1.
  destruct (truthy (code err)) eqn:H2.
  { repeat rewrite (js_or_truthy (code err)) by exact H2. reflexivity. }
  repeat rewrite (js_or_falsy (code err)) by exact H2.
  destruct H as [H|[H|H]]; try discriminate.
  repeat rewrite (js_or_truthy n) by exact H. reflexivity.
Qed.

Lemma own_code_shadows_original_witness :
  parseErrorCode (with_original (Some (error_with_code 429)) (error_with_status 404))
  = parseErrorCode (error_with_status 404).
Proof.
  apply (own_code_shadows_original (error_with_status 404) (Some (error_with_code 429))).
  left. reflexivity.
Defined.

(** ** More on the handler *)

(** X4.  When the handler's promise rejects, [func] has been invoked once
    and that invocation failed, and the handler has stored nothing: the
    heap is as it was and no code has been assigned.  If the code of the
    failure is listed in the record's [retryCodes], the rejection is that
    failure as raised; if it is not, the [code] field of the failure could
    not be written and the rejection is the [TypeError] of that
    assignment. *)
Theorem handler_rejection_stores_nothing (a : addr) (w w' : world) (op : Operation)
    (e : ErrObj) :
  heap w !! a = Some op ->
  handler a w = Some (Normal (Rejected e), w') ->
  exists err,
    await (behaviour (func op) (invocations (fid (func op)) w)) = Abrupt err
    /\ heap w' = heap w
    /\ code_assignments w' = code_assignments w
    /\ invocations (fid (func op)) w' = S (invocations (fid (func op)) w)
    /\ (includes (retryCodes op) (parseErrorCode err) = true ->
        e = err /\ exists n, parseErrorCode err = VNum n /\ In n (retryCodes op))
    /\ (includes (retryCodes op) (parseErrorCode err) = false ->
        code_writable err = false /\ e = TypeError_code_not_writable).
Proof.
  intros Hop Hh.
  destruct (handler_attempt a w op Hop) as (p & op' & evs & Hatt & Hh').
  rewrite Hh' in Hh. clear Hh'.
  assert (Hca : code_assignments
                  {| heap := heap w; events := events w ++ [Invoke (fid (func op))] |}
                = code_assignments w).
  { unfold code_assignments. simpl. rewrite count_app. unfold count at 2. simpl. lia. }
  assert (Hinv : invocations (fid (func op))
                   {| heap := heap w; events := events w ++ [Invoke (fid (func op))] |}
                 = S (invocations (fid (func op)) w)).
  { rewrite invocations_snoc. unfold count. simpl. rewrite Nat.eqb_refl. simpl. lia. }
  destruct Hatt as [v Hr|err Hr Hin|err Hr Hin Hwr|err Hr Hin Hwr]; try discriminate;
    injection Hh as He <-; rewrite (list_insert_id _ _ _ Hop);
    exists err; (split; [exact Hr|]); (split; [reflexivity|]);
    (split; [exact Hca|]); (split; [exact Hinv|]).
  - split; [|congruence]. intros _. split; [symmetry; exact He|].
    apply includes_iff. exact Hin.
  - split; [congruence|]. intros _. split; [exact Hwr|symmetry; exact He].
Qed.

Lemma handler_rejection_stores_nothing_witness :
  exists err,
    await (behaviour (always_fails 0 (frozen_error_with_status 404)) 0) = Abrupt err
    /\ heap {| heap := [Operation_of (always_fails 0 (frozen_error_with_status 404)) None];
               events := [Invoke 0%nat] |} =
       [Operation_of (always_fails 0 (frozen_error_with_status 404)) None]
    /\ code_assignments
         {| heap := [Operation_of (always_fails 0 (frozen_error_with_status 404)) None];
            events := [Invoke 0%nat] |} = 0%nat
    /\ invocations 0
         {| heap := [Operation_of (always_fails 0 (frozen_error_with_status 404)) None];
            events := [Invoke 0%nat] |} = 1%nat.
Proof.
  destruct (handler_rejection_stores_nothing 0%nat
              {| heap := [Operation_of (always_fails 0 (frozen_error_with_status 404)) None];
                 events := [] |}
              {| heap := [Operation_of (always_fails 0 (frozen_error_with_status 404)) None];
                 events := [Invoke 0%nat] |}
              (Operation_of (always_fails 0 (frozen_error_with_status 404)) None)
              TypeError_code_not_writable eq_refl eq_refl)
    as (err & Hr & Hheap & Hca & Hinv & _).
  exists err. split; [exact Hr|]. split; [exact Hheap|]. split; [exact Hca|exact Hinv].
Defined.

(** X5.  One call of the handler on a record invokes the record's [func]
    exactly once and no other [func]; it keeps the record's [func],
    [retryCodes] and [retryCount], never unsets [result] or [error], and
    leaves every other record, and the size of the heap, as they were. *)
Theorem handler_frame (a : addr) (w : world) (op : Operation) :
  heap w !! a = Some op ->
  exists p w' op',
    handler a w = Some (Normal p, w')
    /\ heap w' !! a = Some op'
    /\ func op' = func op
    /\ retryCodes op' = retryCodes op
    /\ retryCount op' = retryCount op
    /\ (result op <> None -> result op' <> None)
    /\ (error op <> None -> error op' <> None)
    /\ length (heap w') = length (heap w)
    /\ (forall b, b <> a -> heap w' !! b = heap w !! b)
    /\ invocations (fid (func op)) w' = S (invocations (fid (func op)) w)
    /\ (forall g, g <> fid (func op) -> invocations g w' = invocations g w).
Proof.
  intros Hop.
  destruct (handler_attempt a w op Hop) as (p & op' & evs & Hatt & Hh).
  exists p, {| heap := <[a := op']> (heap w); events := events w ++ evs |}, op'.
  split; [exact Hh|].
  destruct (attempt_static _ _ _ _ _ _ Hatt) as (Hf & Hc & Hn).
  split; [simpl; apply list_lookup_insert_eq; eapply lookup_lt_Some; exact Hop|].
  split; [exact Hf|]. split; [exact Hc|]. split; [exact Hn|].
  split; [destruct Hatt; simpl; auto; discriminate|].
  split; [destruct Hatt; simpl; auto; discriminate|].
  split; [simpl; apply length_insert|].
  split; [intros b Hb; simpl; apply list_lookup_insert_ne; congruence|].
  split.
  - rewrite invocations_snoc, (attempt_invocations _ _ _ _ _ _ _ Hatt), Nat.eqb_refl. lia.
  - intros g Hg. rewrite invocations_snoc, (attempt_invocations _ _ _ _ _ _ _ Hatt).
    destruct (Nat.eqb_spec g (fid (func op))); [contradiction|lia].
Qed.

Lemma handler_frame_witness :
  exists p w' op',
    handler 0%nat
      {| heap := [Operation_of (always_fails 0 (error_with_status 404)) None];
         events := [] |} = Some (Normal p, w')
    /\ heap w' !! 0%nat = Some op'
    /\ func op' = always_fails 0 (error_with_status 404).
Proof.
  destruct (handler_frame 0%nat
              {| heap := [Operation_of (always_fails 0 (error_with_status 404)) None];
                 events := [] |}
              (Operation_of (always_fails 0 (error_with_status 404)) None) eq_refl)
    as (p & w' & op' & Hh & Hlook & Hf & _).
  exists p, w', op'. split; [exact Hh|]. split; [exact Hlook|exact Hf].
Defined.

(** X6.  A re-raised attempt can be made again: it leaves the heap as it
    was, and a second call of the handler on the same record invokes [func]
    once more and stores what that invocation resolves with. *)
Theorem handler_retry_after_reraise (a : addr) (w w1 : world) (op : Operation)
    (e : ErrObj) (v : value) :
  heap w !! a = Some op ->
  handler a w = Some (Normal (Rejected e), w1) ->
  await (behaviour (func op) (S (invocations (fid (func op)) w))) = Normal v ->
  exists w2,
    handler a w1 = Some (Normal (Fulfilled tt), w2)
    /\ heap w2 = <[a := with_result v op]> (heap w)
    /\ invocations (fid (func op)) w2 = S (S (invocations (fid (func op)) w)).
Proof.
  intros Hop Hh Hv.
  destruct (handler_attempt a w op Hop) as (p & op' & evs & Hatt & Hh').
  rewrite Hh' in Hh. clear Hh'.
  assert (Hp : p = Rejected e) by congruence. subst p.
  destruct (attempt_rejected _ _ _ _ _ _ Hatt) as [-> ->].
  injection Hh as <-.
  rewrite (list_insert_id _ _ _ Hop).
  set (w1 := {| heap := heap w; events := events w ++ [Invoke (fid (func op))] |}).
  assert (Hn : invocations (fid (func op)) w1 = S (invocations (fid (func op)) w)).
  { unfold w1. rewrite invocations_snoc. unfold count. simpl.
    rewrite Nat.eqb_refl. simpl. lia. }
  assert (Hop1 : heap w1 !! a = Some op) by exact Hop.
  rewrite <- Hn in Hv.
  eexists. split; [apply (handler_success a w1 op Hop1 v Hv)|].
  split; [reflexivity|].
  rewrite invocations_snoc, Hn. unfold count. simpl. rewrite Nat.eqb_refl. simpl. lia.
Qed.

Lemma handler_retry_after_reraise_witness :
  exists w2,
    handler 0%nat
      {| heap := [Operation_of
                    (fails_then_succeeds 0 1 (error_with_code 429) (VStr "ok")) None];
         events := [Invoke 0%nat] |} = Some (Normal (Fulfilled tt), w2)
    /\ heap w2 =
         <[0%nat := with_result (VStr "ok")
              (Operation_of (fails_then_succeeds 0 1 (error_with_code 429) (VStr "ok")) None)]>
           [Operation_of (fails_then_succeeds 0 1 (error_with_code 429) (VStr "ok")) None]
    /\ invocations 0 w2 = 2%nat.
Proof.
  exact (handler_retry_after_reraise 0%nat
           {| heap := [Operation_of
                         (fails_then_succeeds 0 1 (error_with_code 429) (VStr "ok")) None];
              events := [] |}
           {| heap := [Operation_of
                         (fails_then_succeeds 0 1 (error_with_code 429) (VStr "ok")) None];
              events := [Invoke 0%nat] |}
           (Operation_of (fails_then_succeeds 0 1 (error_with_code 429) (VStr "ok")) None)
           (error_with_code 429) (VStr "ok") eq_refl eq_refl eq_refl).
Defined.

(** X7.  When the failure has a truthy [status] that is not retryable and
    its [code] field can be written, the failure stored in [error] carries
    that status in its [code] field, whatever its [code] field held
    before. *)
Theorem handler_stores_status_as_code (a : addr) (w : world) (op : Operation)
    (err : ErrObj) :
  heap w !! a = Some op ->
  await (behaviour (func op) (invocations (fid (func op)) w)) = Abrupt err ->
  truthy (status err) = true ->
  includes (retryCodes op) (status err) = false ->
  code_writable err = true ->
  exists w' op',
    handler a w = Some (Normal (Fulfilled tt), w')
    /\ heap w' !! a = Some op'
    /\ error op' = Some (set_code err (status err))
    /\ code (set_code err (status err)) = status err.
Proof.
  intros Hop Hr Hs Hin Hwr.
  assert (Hp : parseErrorCode err = status err).
  { unfold parseErrorCode. repeat rewrite (js_or_truthy (status err)) by exact Hs.
    reflexivity. }
  rewrite <- Hp in Hin.
  eexists _, _. split; [apply (handler_terminal a w op Hop err Hr Hin Hwr)|].
  split; [simpl; apply list_lookup_insert_eq; eapply lookup_lt_Some; exact Hop|].
  rewrite Hp. split; reflexivity.
Qed.

Lemma handler_stores_status_as_code_witness :
  exists w' op',
    handler 0%nat
      {| heap := [Operation_of
                    (always_fails 0 (mkErr "gone" (VNum 404) (VStr "ENOENT") None None true))
                    None];
         events := [] |} = Some (Normal (Fulfilled tt), w')
    /\ heap w' !! 0%nat = Some op'
    /\ error op' = Some (set_code (mkErr "gone" (VNum 404) (VStr "ENOENT") None None true)
                           (VNum 404))
    /\ code (set_code (mkErr "gone" (VNum 404) (VStr "ENOENT") None None true) (VNum 404))
       = VNum 404.
Proof.
  exact (handler_stores_status_as_code 0%nat
           {| heap := [Operation_of
                         (always_fails 0 (mkErr "gone" (VNum 404) (VStr "ENOENT") None None true))
                         None];
              events := [] |}
           (Operation_of
              (always_fails 0 (mkErr "gone" (VNum 404) (VStr "ENOENT") None None true)) None)
           (mkErr "gone" (VNum 404) (VStr "ENOENT") None None true)
           eq_refl eq_refl eq_refl eq_refl eq_refl).
Defined.

(** ** More on the executors *)

Lemma RateLimitedExecutor_run_success (this : RateLimitedExecutor) f opts w v :
  await (behaviour f (invocations (fid f) w)) = Normal v ->
  RateLimitedExecutor_run this f opts w =
    Some (Normal (Fulfilled v),
          {| heap := heap w ++ [with_result v (RateLimitedOperation_of f opts)];
             events := events w ++ [Invoke (fid f); AssignResult (length (heap w)) v] |}).
Proof.
  intros Hr.
  set (op := RateLimitedOperation_of f opts).
  set (w1 := {| heap := heap w ++ [op]; events := events w |}).
  assert (Hop : heap w1 !! length (heap w) = Some op) by apply lookup_new.
  pose proof (handler_success (length (heap w)) w1 op Hop v Hr) as Hh.
  rewrite RateLimitedExecutor_run_unfold. fold op. fold w1.
  rewrite (PQueue_add_task_handler _ _ _ _ _ _ Hh).
  unfold w1. simpl. rewrite insert_new, lookup_new. reflexivity.
Qed.

Lemma QueueExecutor_run_success (this : QueueExecutor) f opts w v :
  resolves_on_completion (queue this) handler ->
  await (behaviour f (invocations (fid f) w)) = Normal v ->
  QueueExecutor_run this f opts w =
    Some (Normal (Fulfilled v),
          {| heap := heap w ++ [with_result v (Operation_of f opts)];
             events := events w ++ [Invoke (fid f); AssignResult (length (heap w)) v] |}).
Proof.
  intros Hq Hr.
  set (op := Operation_of f opts).
  set (w1 := {| heap := heap w ++ [op]; events := events w |}).
  assert (Hop : heap w1 !! length (heap w) = Some op) by apply lookup_new.
  pose proof (handler_success (length (heap w)) w1 op Hop v Hr) as Hh.
  apply Hq in Hh.
  rewrite QueueExecutor_run_unfold. fold op. fold w1. rewrite Hh.
  unfold w1. simpl. rewrite insert_new, lookup_new. reflexivity.
Qed.

(** X8.  The outcome of [RateLimitedExecutor.run] is decided by the first
    invocation of [func] alone.  If it succeeds, [run] resolves with its
    value.  If it fails with a retryable code, [run] rejects with the
    failure as raised.  If it fails with any other code, [run] rejects with
    that failure, the code in its [code] field and all else as raised, when
    that field can be written, and with the [TypeError] of the assignment
    when it cannot. *)
Theorem RateLimitedExecutor_run_outcome (this : RateLimitedExecutor) (f : Func)
    (opts : option RunOptions) (w : world) :
  (exists w',
    RateLimitedExecutor_run this f opts w =
      Some (Normal
              (match await (behaviour f (invocations (fid f) w)) with
               | Normal v => Fulfilled v
               | Abrupt err =>
                   if includes (effective_retryCodes opts) (parseErrorCode err)
                   then Rejected (Thrown err)
                   else if code_writable err
                        then Rejected (Thrown (set_code err (parseErrorCode err)))
                        else Rejected (Thrown TypeError_code_not_writable)
               end), w'))
  /\ (forall err,
        await (behaviour f (invocations (fid f) w)) = Abrupt err ->
        includes (effective_retryCodes opts) (parseErrorCode err) = false ->
        code_writable err = true ->
        exists w' e',
          RateLimitedExecutor_run this f opts w =
            Some (Normal (Rejected (Thrown e')), w')
          /\ code e' = parseErrorCode err
          /\ message e' = message err
          /\ status e' = status err
          /\ context e' = context err
          /\ original e' = original err
          /\ heap w' !! length (heap w) =
               Some (with_error e' (RateLimitedOperation_of f opts))).
Proof.
  split.
  - destruct (await (behaviour f (invocations (fid f) w))) as [v|err] eqn:Hr.
    + eexists. apply RateLimitedExecutor_run_success. exact Hr.
    + destruct (includes (effective_retryCodes opts) (parseErrorCode err)) eqn:Hin.
      * eexists. apply RateLimitedExecutor_run_retryable; assumption.
      * destruct (code_writable err) eqn:Hwr.
        -- eexists. apply RateLimitedExecutor_run_terminal; assumption.
        -- eexists. apply (RateLimitedExecutor_run_not_writable this f opts w err); assumption.
  - intros err Hr Hin Hwr. eexists _, (set_code err (parseErrorCode err)).
    split; [apply RateLimitedExecutor_run_terminal; assumption|].
    repeat (split; [reflexivity|]). apply lookup_new.
Qed.

Lemma RateLimitedExecutor_run_outcome_witness :
  exists w' e',
    RateLimitedExecutor_run {| retries := 5 |} (always_fails 0 (error_with_status 404))
      None empty_world = Some (Normal (Rejected (Thrown e')), w')
    /\ code e' = VNum 404
    /\ code (error_with_status 404) = VUndefined
    /\ status e' = VNum 404.
Proof.
  destruct (proj2 (RateLimitedExecutor_run_outcome {| retries := 5 |}
                     (always_fails 0 (error_with_status 404)) None empty_world)
              (error_with_status 404) eq_refl eq_refl eq_refl)
    as (w' & e' & Hrun & Hcode & _ & Hstatus & _).
  exists w', e'. split; [exact Hrun|]. split; [exact Hcode|].
  split; [reflexivity|exact Hstatus].
Defined.

(** X9.  Whatever [func] does, [RateLimitedExecutor.run] invokes it exactly
    once and invokes no other [func]; it adds one record to the heap, whose
    [retryCount] is still 0 when [run] settles, and changes no record that
    was there; it assigns a code to a failure at most once; and it never
    rejects with a retries-exhausted failure. *)
Theorem RateLimitedExecutor_run_effects (this : RateLimitedExecutor) (f : Func)
    (opts : option RunOptions) (w : world) :
  exists r w' op',
    RateLimitedExecutor_run this f opts w = Some (Normal r, w')
    /\ heap w' = heap w ++ [op']
    /\ func op' = f
    /\ retryCodes op' = effective_retryCodes opts
    /\ retryCount op' = Some O
    /\ invocations (fid f) w' = S (invocations (fid f) w)
    /\ (forall g, g <> fid f -> invocations g w' = invocations g w)
    /\ (code_assignments w' <= S (code_assignments w))%nat
    /\ (forall e, r = Rejected e -> is_retries_exhausted e = false).
Proof.
  destruct (RateLimitedExecutor_run_settles this f opts w)
    as (r & op' & tail & Hs & Hrun).
  eexists r, _, op'. split; [exact Hrun|]. split; [reflexivity|].
  split; [destruct Hs; reflexivity|]. split; [destruct Hs; reflexivity|].
  split; [destruct Hs; reflexivity|].
  split.
  { rewrite invocations_snoc, count_app, (run_settled_no_invoke _ _ _ _ _ _ _ Hs).
    unfold count. simpl. rewrite Nat.eqb_refl. simpl. lia. }
  split.
  { intros g Hg. eapply RateLimitedExecutor_run_frame; eassumption. }
  split.
  { unfold code_assignments. simpl. rewrite !count_app.
    destruct Hs; unfold count; simpl; lia. }
  intros e He. destruct Hs; try discriminate; injection He as <-; reflexivity.
Qed.

(** X10.  The [retries] option has no effect: two rate-limited executors
    that differ in it do the same on every call of [run]. *)
Theorem RateLimitedExecutor_retries_have_no_effect
    (this1 this2 : RateLimitedExecutor) (f : Func) (opts : option RunOptions) (w : world) :
  RateLimitedExecutor_run this1 f opts w = RateLimitedExecutor_run this2 f opts w.
Proof.
  set (w1 := {| heap := heap w ++ [RateLimitedOperation_of f opts]; events := events w |}).
  destruct (handler_attempt (length (heap w)) w1 (RateLimitedOperation_of f opts)
              (lookup_new _ _)) as (p & op' & evs & _ & Hh).
  rewrite !RateLimitedExecutor_run_unfold. fold w1.
  rewrite (PQueue_add_task_handler (S (retries this1)) this1 _ _ _ _ Hh).
  rewrite (PQueue_add_task_handler (S (retries this2)) this2 _ _ _ _ Hh).
  reflexivity.
Qed.

(** X11.  When the invocation of [func] succeeds, the three executors agree:
    each invokes [func] once and hands on its value, none classifies or
    annotates anything, and the queue-backed ones leave the value in the
    [result] of the record they created.  For [QueueExecutor] this holds
    over any queue whose promise resolves once the handler has completed
    without raising. *)
Theorem executors_agree_on_success (f : Func) (opts : option RunOptions) (w : world)
    (v : value) :
  await (behaviour f (invocations (fid f) w)) = Normal v ->
  (forall this : QueueExecutor,
      resolves_on_completion (queue this) handler ->
      exists w',
        QueueExecutor_run this f opts w = Some (Normal (Fulfilled v), w')
        /\ heap w' = heap w ++ [with_result v (Operation_of f opts)]
        /\ invocations (fid f) w' = S (invocations (fid f) w)
        /\ code_assignments w' = code_assignments w)
  /\ (forall this : RateLimitedExecutor,
      exists w',
        RateLimitedExecutor_run this f opts w = Some (Normal (Fulfilled v), w')
        /\ heap w' = heap w ++ [with_result v (RateLimitedOperation_of f opts)]
        /\ invocations (fid f) w' = S (invocations (fid f) w)
        /\ code_assignments w' = code_assignments w)
  /\ (forall this : InlineExecutor,
      exists c w',
        InlineExecutor_run this f w = Some (c, w')
        /\ await c = Normal v
        /\ heap w' = heap w
        /\ invocations (fid f) w' = S (invocations (fid f) w)
        /\ code_assignments w' = code_assignments w).
Proof.
  intros Hr.
  assert (Hinv : forall h a,
            invocations (fid f)
              {| heap := h; events := events w ++ [Invoke (fid f); AssignResult a v] |}
            = S (invocations (fid f) w)).
  { intros h a. rewrite invocations_snoc. unfold count. simpl.
    rewrite Nat.eqb_refl. simpl. lia. }
  assert (Hcode : forall h a,
            code_assignments
              {| heap := h; events := events w ++ [Invoke (fid f); AssignResult a v] |}
            = code_assignments w).
  { intros h a. unfold code_assignments. simpl. rewrite count_app.
    unfold count at 2. simpl. lia. }
  split; [|split].
  - intros this Hq. eexists. split; [apply QueueExecutor_run_success; assumption|].
    split; [reflexivity|]. split; [apply Hinv|apply Hcode].
  - intros this. eexists. split; [apply RateLimitedExecutor_run_success; assumption|].
    split; [reflexivity|]. split; [apply Hinv|apply Hcode].
  - intros this. eexists _, _. split; [reflexivity|]. split; [exact Hr|].
    split; [reflexivity|]. split.
    + rewrite invocations_snoc. unfold count. simpl. rewrite Nat.eqb_refl. simpl. lia.
    + unfold code_assignments. simpl. rewrite count_app. unfold count at 2. simpl. lia.
Qed.

Lemma executors_agree_on_success_witness :
  exists w',
    RateLimitedExecutor_run {| retries := 2 |}
      (fails_then_succeeds 0 0 (error_with_code 429) (VStr "ok")) None empty_world =
      Some (Normal (Fulfilled (VStr "ok")), w')
    /\ heap w' =
         heap empty_world ++
         [with_result (VStr "ok")
            (RateLimitedOperation_of
               (fails_then_succeeds 0 0 (error_with_code 429) (VStr "ok")) None)]
    /\ invocations 0 w' = 1%nat
    /\ code_assignments w' = code_assignments empty_world.
Proof.
  exact (proj1 (proj2 (executors_agree_on_success
           (fails_then_succeeds 0 0 (error_with_code 429) (VStr "ok")) None empty_world
           (VStr "ok") eq_refl)) {| retries := 2 |}).
Defined.

(** X12.  When [func] throws before returning a promise, [InlineExecutor.run]
    throws the same failure to its caller, whereas
    [RateLimitedExecutor.run] returns a promise and rejects it, just as it
    does when [func] returns a promise that rejects with that failure. *)
Theorem synchronous_throw_of_func (f : Func) (opts : option RunOptions) (w : world)
    (e : ErrObj) :
  behaviour f (invocations (fid f) w) = Abrupt e ->
  (forall this : InlineExecutor,
      exists w', InlineExecutor_run this f w = Some (Abrupt e, w'))
  /\ (forall (this : RateLimitedExecutor) (f' : Func),
      fid f' = fid f ->
      behaviour f' (invocations (fid f) w) = Normal (Rejected e) ->
      exists r w' w'',
        RateLimitedExecutor_run this f opts w = Some (Normal (Rejected r), w')
        /\ RateLimitedExecutor_run this f' opts w = Some (Normal (Rejected r), w'')
        /\ events w' = events w''
        /\ r = (if includes (effective_retryCodes opts) (parseErrorCode e)
                then Thrown e
                else if code_writable e
                     then Thrown (set_code e (parseErrorCode e))
                     else Thrown TypeError_code_not_writable)).
Proof.
  intros Hb. split.
  - intros this. eexists. unfold InlineExecutor_run, call. rewrite Hb. reflexivity.
  - intros this f' Hfid Hb'.
    assert (Hr : await (behaviour f (invocations (fid f) w)) = Abrupt e)
      by (rewrite Hb; reflexivity).
    assert (Hr' : await (behaviour f' (invocations (fid f') w)) = Abrupt e)
      by (rewrite Hfid, Hb'; reflexivity).
    destruct (includes (effective_retryCodes opts) (parseErrorCode e)) eqn:Hin.
    + eexists _, _, _.
      split; [apply RateLimitedExecutor_run_retryable; eassumption|].
      split; [apply RateLimitedExecutor_run_retryable; eassumption|].
      split; [simpl; rewrite Hfid; reflexivity|reflexivity].
    + destruct (code_writable e) eqn:Hwr.
      * eexists _, _, _.
        split; [apply RateLimitedExecutor_run_terminal; eassumption|].
        split; [apply RateLimitedExecutor_run_terminal; eassumption|].
        split; [simpl; rewrite Hfid; reflexivity|reflexivity].
      * eexists _, _, _.
        split; [apply (RateLimitedExecutor_run_not_writable this f opts w e);
                assumption|].
        split; [apply (RateLimitedExecutor_run_not_writable this f' opts w e);
                assumption|].
        split; [simpl; rewrite Hfid; reflexivity|reflexivity].
Qed.

Lemma synchronous_throw_of_func_witness :
  exists w',
    InlineExecutor_run mkInlineExecutor
      (mkFunc 0 (fun _ => Abrupt (error_with_code 500))) empty_world =
      Some (Abrupt (error_with_code 500), w').
Proof.
  exact (proj1 (synchronous_throw_of_func
           (mkFunc 0 (fun _ => Abrupt (error_with_code 500))) None empty_world
           (error_with_code 500) eq_refl) mkInlineExecutor).
Defined.
